(** * parse_commits.py: commit-timeline generator

    A shallow embedding of [scripts/parse_commits.py] and the properties of
    its four stages: the timestamp normaliser, the record parser, the branch
    attribution engine and the timeline renderer.

    Conventions of the embedding.
    - A Python [str] is a list of Unicode code points ([N]); [len] is
      [length], so the 40-character hash test counts code points.
    - A Python exception that the script catches, or that aborts it, is the
      [None] of an [option].
    - A naive [datetime] is the number of whole seconds since
      0001-01-01 00:00:00; the log format [%ai] has no sub-second part.
    - The list of record dictionaries is a heap of records addressed by
      position; the attribution engine writes into it through references. *)

From Stdlib Require Import ZArith NArith List Bool Lia.
From Stdlib Require Import Permutation Sorted.
From Stdlib Require String Ascii DecimalString.
Import String.StringSyntax.
Delimit Scope string_scope with string.
Import ListNotations.

Set Implicit Arguments.

(* ================================================================== *)
(** * Python strings *)

Definition char := N.
Definition str := list char.

(** An ASCII literal as a Python string. *)
Definition lit (s : String.string) : str :=
  map Ascii.N_of_ascii (String.list_ascii_of_string s).
Arguments lit s%_string.

(** The field separator of the log format, U+221E. *)
Definition SEP : char := 8734%N.

Definition NL : char := 10%N.
Definition SPACE : char := 32%N.
Definition COMMA : char := 44%N.

Fixpoint str_eqb (a b : str) : bool :=
  match a, b with
  | [], [] => true
  | x :: a', y :: b' => N.eqb x y && str_eqb a' b'
  | _, _ => false
  end.

(** [str.isspace] of one code point, which is also the class [\s] of [re]
    on [str] patterns. *)
Definition is_space (c : char) : bool :=
  ((9 <=? c) && (c <=? 13) || (28 <=? c) && (c <=? 32)
   || (c =? 133) || (c =? 160) || (c =? 5760)
   || (8192 <=? c) && (c <=? 8202) || (c =? 8232) || (c =? 8233)
   || (c =? 8239) || (c =? 8287) || (c =? 12288))%N.

Fixpoint drop_while (ok : char -> bool) (s : str) : str :=
  match s with
  | [] => []
  | c :: s' => if ok c then drop_while ok s' else s
  end.

Definition lstrip (s : str) : str := drop_while is_space s.

Definition rstrip (s : str) : str := rev (lstrip (rev s)).

(** [s.strip()] *)
Definition strip (s : str) : str := rstrip (lstrip s).

(** [s.startswith(p)] *)
Fixpoint startswith (p s : str) : bool :=
  match p, s with
  | [], _ => true
  | x :: p', y :: s' => N.eqb x y && startswith p' s'
  | _ :: _, [] => false
  end.

(** [p in s] *)
Fixpoint contains (p s : str) : bool :=
  startswith p s ||
  match s with
  | [] => false
  | _ :: s' => contains p s'
  end.

(** [s.split(sep)] for a one-character separator. *)
Fixpoint split (sep : char) (s : str) : list str :=
  match s with
  | [] => [[]]
  | c :: s' =>
      if N.eqb c sep then [] :: split sep s'
      else match split sep s' with
           | f :: fs => (c :: f) :: fs
           | [] => [[c]]
           end
  end.

(** [s.rsplit(sep, 1)] for a one-character separator: the string is cut at
    its last separator, or returned whole when it has none. *)
Fixpoint rsplit1 (sep : char) (s : str) : list str :=
  match s with
  | [] => [[]]
  | c :: s' =>
      match rsplit1 sep s' with
      | [a; b] => [c :: a; b]
      | _ => if N.eqb c sep then [[]; s'] else [c :: s']
      end
  end.

(** The longest prefix of [s] whose characters satisfy [ok], and the rest:
    a greedy character class [[...]*] of [re]. *)
Fixpoint span (ok : char -> bool) (s : str) : str * str :=
  match s with
  | [] => ([], [])
  | c :: s' =>
      if ok c then let (a, b) := span ok s' in (c :: a, b) else ([], s)
  end.

(** [s[len(p):]] when [s] starts with [p]. *)
Fixpoint strip_prefix (p s : str) : option str :=
  match p, s with
  | [], _ => Some s
  | x :: p', y :: s' => if N.eqb x y then strip_prefix p' s' else None
  | _ :: _, [] => None
  end.

(** Decimal digits of the Unicode database (category Nd, Unicode 14), as
    ranges [(first, last)]; every range starts at a digit zero, so the value
    of a digit is its distance to [first] modulo ten. This is [\d] of [re]
    on [str] patterns and the digits [int] accepts. *)
Definition decimal_ranges : list (N * N) :=
  [(48, 57); (1632, 1641); (1776, 1785); (1984, 1993); (2406, 2415);
   (2534, 2543); (2662, 2671); (2790, 2799); (2918, 2927); (3046, 3055);
   (3174, 3183); (3302, 3311); (3430, 3439); (3558, 3567); (3664, 3673);
   (3792, 3801); (3872, 3881); (4160, 4169); (4240, 4249); (6112, 6121);
   (6160, 6169); (6470, 6479); (6608, 6617); (6784, 6793); (6800, 6809);
   (6992, 7001); (7088, 7097); (7232, 7241); (7248, 7257); (42528, 42537);
   (43216, 43225); (43264, 43273); (43472, 43481); (43504, 43513);
   (43600, 43609); (44016, 44025); (65296, 65305); (66720, 66729);
   (68912, 68921); (69734, 69743); (69872, 69881); (69942, 69951);
   (70096, 70105); (70384, 70393); (70736, 70745); (70864, 70873);
   (71248, 71257); (71360, 71369); (71472, 71481); (71904, 71913);
   (72016, 72025); (72784, 72793); (73040, 73049); (73120, 73129);
   (92768, 92777); (92864, 92873); (93008, 93017); (120782, 120831);
   (123200, 123209); (123632, 123641); (125264, 125273);
   (130032, 130041)]%N.

Fixpoint decimal_in (rs : list (N * N)) (c : char) : option Z :=
  match rs with
  | [] => None
  | (lo, hi) :: rs' =>
      if ((lo <=? c) && (c <=? hi))%N
      then Some (Z.of_N ((c - lo) mod 10))
      else decimal_in rs' c
  end.

Definition decimal_value (c : char) : option Z := decimal_in decimal_ranges c.

Definition is_decimal (c : char) : bool :=
  match decimal_value c with Some _ => true | None => false end.

(** The digits ["0"].. ["9"]. *)
Definition ascii_digit (c : char) : option Z :=
  if ((48 <=? c) && (c <=? 57))%N then Some (Z.of_N (c - 48)) else None.

(** White space as [int] sees it: the separators U+001C..U+001F are not
    skipped. *)
Definition is_int_space (c : char) : bool :=
  is_space c && negb ((28 <=? c) && (c <=? 31))%N.

Fixpoint int_digits (acc : Z) (after_digit : bool) (s : str) : option Z :=
  match s with
  | [] => if after_digit then Some acc else None
  | c :: s' =>
      match decimal_value c with
      | Some d => int_digits (acc * 10 + d) true s'
      | None =>
          if N.eqb c 95 && after_digit then int_digits acc false s'
          else None
      end
  end.

(** [int(s)]: surrounding white space, an optional sign, then decimal digits
    in which single underscores may separate digits; [None] is ValueError. *)
Definition py_int (s : str) : option Z :=
  let s := rev (drop_while is_int_space (rev (drop_while is_int_space s))) in
  match s with
  | 43%N :: body => int_digits 0 false body
  | 45%N :: body => option_map Z.opp (int_digits 0 false body)
  | _ => int_digits 0 false s
  end.

(* ================================================================== *)
(** * Dates and times

    [datetime], [timedelta] and [timezone] belong to the Python library, not
    to the script; the model below keeps what the script uses of them. *)

Local Open Scope Z_scope.

Notation "x <- e ;; k" := (match e with Some x => k | None => None end)
  (at level 61, e at next level, right associativity).

(** A naive [datetime]: seconds since 0001-01-01 00:00:00. *)
Definition datetime := Z.

Definition MINYEAR : Z := 1.
Definition MAXYEAR : Z := 9999.

(** [datetime.max] without its microseconds: 9999-12-31 23:59:59. *)
Definition MAX_DATETIME : datetime := 315537897599.

Definition is_leap (year : Z) : bool :=
  (year mod 4 =? 0) && (negb (year mod 100 =? 0) || (year mod 400 =? 0)).

Definition days_before_year (year : Z) : Z :=
  let y := year - 1 in y * 365 + y / 4 - y / 100 + y / 400.

Definition days_in_month (year month : Z) : Z :=
  match month with
  | 2 => if is_leap year then 29 else 28
  | 4 | 6 | 9 | 11 => 30
  | _ => 31
  end.

Definition days_before_month (year month : Z) : Z :=
  match month with
  | 1 => 0 | 2 => 31 | 3 => 59 | 4 => 90 | 5 => 120 | 6 => 151
  | 7 => 181 | 8 => 212 | 9 => 243 | 10 => 273 | 11 => 304 | _ => 334
  end + (if (2 <? month) && is_leap year then 1 else 0).

(** Proleptic Gregorian ordinal, 0001-01-01 being day 1. *)
Definition ymd2ord (year month day : Z) : Z :=
  days_before_year year + days_before_month year month + day.

(** [datetime(year, month, day, hour, minute, second)]; [None] is the
    ValueError of a field out of range. *)
Definition mk_datetime (year month day hour minute second : Z)
  : option datetime :=
  if (MINYEAR <=? year) && (year <=? MAXYEAR)
     && (1 <=? month) && (month <=? 12)
     && (1 <=? day) && (day <=? days_in_month year month)
     && (0 <=? hour) && (hour <=? 23)
     && (0 <=? minute) && (minute <=? 59)
     && (0 <=? second) && (second <=? 59)
  then Some ((ymd2ord year month day - 1) * 86400
             + hour * 3600 + minute * 60 + second)
  else None.

Definition digits2 (a b : char) : option Z :=
  x <- ascii_digit a ;; y <- ascii_digit b ;; Some (10 * x + y).

Definition digits4 (a b c d : char) : option Z :=
  x <- digits2 a b ;; y <- digits2 c d ;; Some (100 * x + y).

(** [datetime.fromisoformat] on the layout the log produces,
    [YYYY-MM-DD?HH:MM:SS] with any one character between date and time.
    The library reads further ISO 8601 layouts; the model answers [None]
    on them, and no property below depends on such an answer. *)
Definition fromisoformat (s : str) : option datetime :=
  match s with
  | [y1; y2; y3; y4; da; m1; m2; db; d1; d2; _;
     h1; h2; ca; n1; n2; cb; s1; s2] =>
      if (N.eqb da 45 && N.eqb db 45 && N.eqb ca 58 && N.eqb cb 58)%bool
      then
        year <- digits4 y1 y2 y3 y4 ;;
        month <- digits2 m1 m2 ;;
        day <- digits2 d1 d2 ;;
        hour <- digits2 h1 h2 ;;
        minute <- digits2 n1 n2 ;;
        second <- digits2 s1 s2 ;;
        mk_datetime year month day hour minute second
      else None
  | _ => None
  end.

(** [timezone(timedelta(minutes=m))]: the offset must lie strictly between
    minus and plus 24 hours (a [timedelta] too large to build fails as
    well). The result is the offset in minutes. *)
Definition timezone (offset_minutes : Z) : option Z :=
  if (-1440 <? offset_minutes) && (offset_minutes <? 1440)
  then Some offset_minutes else None.

(** [dt.replace(tzinfo=tz).astimezone(timezone.utc).replace(tzinfo=None)]:
    the offset is subtracted; OverflowError when the result leaves
    [datetime.min .. datetime.max]. *)
Definition to_naive_utc (dt : datetime) (tz : Z) : option datetime :=
  let utc := dt - tz * 60 in
  if (0 <=? utc) && (utc <=? MAX_DATETIME) then Some utc else None.

(** [parse_timestamp], lines 19-60. The [except Exception] clause turns
    every failure into [None]; the message it prints is not modelled. *)
Definition parse_timestamp (timestamp_str : str) : option datetime :=
  let timestamp_str := strip timestamp_str in
  if contains (lit " +") timestamp_str || contains (lit " -") timestamp_str
  then
    match rsplit1 SPACE timestamp_str with
    | [dt_part; tz_part] =>
        dt <- fromisoformat dt_part ;;
        let sign := if startswith (lit "+") tz_part then 1 else -1 in
        let tz_str := skipn 1 tz_part in
        hours <- py_int (firstn 2 tz_str) ;;
        minutes <- py_int (skipn 2 tz_str) ;;
        let offset_minutes := sign * (hours * 60 + minutes) in
        tz <- timezone offset_minutes ;;
        to_naive_utc dt tz
    | _ => None
    end
  else fromisoformat timestamp_str.

(* ================================================================== *)
(** * The regular expressions of the script

    Each pattern of the script is a literal followed by greedy character
    classes, so its matcher is written out directly: [strip_prefix] for a
    literal, [span] for a class with [+], which must take at least one
    character. A shorter take of a class never helps a later literal, since
    the character after a shorter take is still in the class. *)

(** [re.search]: the match at the leftmost position that has one. *)
Fixpoint re_search (A : Type) (m : str -> option A) (s : str) : option A :=
  match m s with
  | Some x => Some x
  | None =>
      match s with
      | [] => None
      | _ :: s' => re_search m s'
      end
  end.

(** The class [[^,\s]]. *)
Definition name_char (c : char) : bool :=
  negb (N.eqb c COMMA) && negb (is_space c).

(** [prefix([^,\s]+)] at the start of [s]: the group and what follows. *)
Definition match_name_after (prefix s : str) : option (str * str) :=
  r <- strip_prefix prefix s ;;
  let (name, rest) := span name_char r in
  match name with
  | [] => None
  | _ => Some (name, rest)
  end.

(** [re.findall(prefix([^,\s]+), s)]: the groups of the successive
    non-overlapping matches; [skip] counts the characters of the last match
    still to be passed. *)
Fixpoint findall_name_after (prefix : str) (skip : nat) (s : str)
  : list str :=
  match s with
  | [] => []
  | _ :: s' =>
      match skip with
      | S k => findall_name_after prefix k s'
      | O =>
          match match_name_after prefix s with
          | Some (name, _) =>
              name :: findall_name_after prefix
                        (length prefix + length name - 1) s'
          | None => findall_name_after prefix 0 s'
          end
      end
  end.

(** [Merge pull request #\d+ from [^/]+/(.+)] at the start of [s]. *)
Definition match_pull_request (s : str) : option str :=
  r <- strip_prefix (lit "Merge pull request #") s ;;
  let (number, r) := span is_decimal r in
  match number with
  | [] => None
  | _ =>
      r <- strip_prefix (lit " from ") r ;;
      let (owner, r) := span (fun c => negb (N.eqb c 47)) r in
      match owner with
      | [] => None
      | _ =>
          r <- strip_prefix (lit "/") r ;;
          let (group, _) := span (fun c => negb (N.eqb c NL)) r in
          match group with
          | [] => None
          | _ => Some group
          end
      end
  end.

(** [Merge branch '([^']+)'] at the start of [s]. *)
Definition match_merge_branch (s : str) : option str :=
  r <- strip_prefix (lit "Merge branch '") s ;;
  let (group, r) := span (fun c => negb (N.eqb c 39)) r in
  match group with
  | [] => None
  | _ => _ <- strip_prefix (lit "'") r ;; Some group
  end.

Definition str_in (s : str) (l : list str) : bool := existsb (str_eqb s) l.

(** [extract_branch_from_refs], lines 62-93. *)
Definition extract_branch_from_refs (refs_str : str) : option str :=
  match refs_str with
  | [] => None
  | _ =>
      let refs_str := strip refs_str in
      match
        (if contains (lit "HEAD -> ") refs_str
         then option_map fst
                (re_search (match_name_after (lit "HEAD -> ")) refs_str)
         else None)
      with
      | Some name => Some name
      | None =>
          match
            (if contains (lit "origin/") refs_str
             then find (fun branch =>
                          negb (str_in branch
                                  [lit "HEAD"; lit "main"; lit "master"]))
                       (findall_name_after (lit "origin/") 0 refs_str)
             else None)
          with
          | Some branch => Some branch
          | None =>
              let parts := map strip (split COMMA refs_str) in
              match
                find (fun part =>
                        negb (startswith (lit "origin/") part)
                        && negb (str_in part
                                   [lit "refs/stash"; []; lit "main";
                                    lit "master"]))
                     parts
              with
              | Some part => Some part
              | None =>
                  if contains (lit "origin/main") refs_str
                     || contains (lit "main") refs_str
                  then Some (lit "main")
                  else if contains (lit "origin/master") refs_str
                          || contains (lit "master") refs_str
                  then Some (lit "master")
                  else None
              end
          end
      end
  end.

(** [extract_branch_from_merge_message], lines 95-107. *)
Definition extract_branch_from_merge_message (message : str) : option str :=
  match re_search match_pull_request message with
  | Some group => Some (strip group)
  | None =>
      match re_search match_merge_branch message with
      | Some group => Some (strip group)
      | None => None
      end
  end.

(* ================================================================== *)
(** * Records, dictionaries and the stable sort *)

(** A commit dictionary. The key ['branch'] is absent until the attribution
    engine writes it: [None] is the absent key. *)
Record Commit := mkCommit {
  hash : str;
  timestamp : datetime;
  message : str;
  refs : str;
  files : list str;
  branch : option str
}.

(** [commit['branch'] = b] *)
Definition set_branch (b : str) (commit : Commit) : Commit :=
  mkCommit (hash commit) (timestamp commit) (message commit) (refs commit)
           (files commit) (Some b).

(** [commit.get('type', '')]: no dictionary of this program has the key
    ['type'], so the default is what the call returns. *)
Definition commit_type (commit : Commit) : str := [].

(** An entry of [branch_periods]. *)
Record BranchPeriod := mkBranchPeriod {
  period_branch : str;
  merge_time : datetime;
  merge_hash : str
}.

(** A value of the dictionary [merge_branches]. *)
Record MergeInfo := mkMergeInfo {
  info_branch : str;
  info_timestamp : datetime;
  info_message : str
}.

(** A dictionary keyed by strings, in insertion order. *)
Definition dict (V : Type) := list (str * V).

(** [d[k] = v] *)
Fixpoint dict_set (V : Type) (k : str) (v : V) (d : dict V) : dict V :=
  match d with
  | [] => [(k, v)]
  | (k', v') :: d' =>
      if str_eqb k' k then (k, v) :: d' else (k', v') :: dict_set k v d'
  end.

(** [k in d] *)
Definition dict_mem (V : Type) (k : str) (d : dict V) : bool :=
  existsb (fun kv => str_eqb (fst kv) k) d.

Section StableSort.
Variable A : Type.
Variable key : A -> Z.

(** [x] goes in front of the first element whose key is not smaller. *)
Fixpoint insert_by (x : A) (l : list A) : list A :=
  match l with
  | [] => [x]
  | y :: l' => if key x <=? key y then x :: l else y :: insert_by x l'
  end.

(** [sorted(l, key=key)] and [l.sort(key=key)]: ascending and stable,
    elements of equal key keep their order. *)
Fixpoint sorted_by (l : list A) : list A :=
  match l with
  | [] => []
  | x :: l' => insert_by x (sorted_by l')
  end.
End StableSort.

(* ================================================================== *)
(** * The branch attribution engine, lines 109-169 *)

(** The list [commits] holds references to dictionaries; the heap is the
    list of these dictionaries and a reference is a position in it. *)
Definition heap := list Commit.

(** [commits[r] = commit], for a reference in range. *)
Fixpoint heap_set (r : nat) (commit : Commit) (h : heap) : heap :=
  match h, r with
  | [], _ => []
  | _ :: h', O => commit :: h'
  | x :: h', S r' => x :: heap_set r' commit h'
  end.

(** [sorted(commits, key=lambda x: x['timestamp'])]: a new list of the same
    references, ordered by the timestamps read at the call. *)
Definition sorted_refs (commits : heap) : list nat :=
  map fst
      (sorted_by (fun p : nat * Commit => timestamp (snd p))
                 (combine (seq 0 (length commits)) commits)).

(** The test of line 119. *)
Definition is_merge_commit (commit : Commit) : bool :=
  startswith (lit "Merge") (message commit)
  || contains (lit "[MERGE]") (commit_type commit).

(** One iteration of the first loop, lines 118-132. *)
Definition merge_step (commits : heap)
    (acc : dict MergeInfo * list BranchPeriod) (r : nat)
  : dict MergeInfo * list BranchPeriod :=
  match nth_error commits r with
  | None => acc
  | Some commit =>
      if is_merge_commit commit then
        match extract_branch_from_merge_message (message commit) with
        | Some ((_ :: _) as branch) =>
            (dict_set (hash commit)
                      (mkMergeInfo branch (timestamp commit) (message commit))
                      (fst acc),
             snd acc ++ [mkBranchPeriod branch (timestamp commit)
                                        (hash commit)])
        | _ => acc
        end
      else acc
  end.

(** The loop of lines 155-167, with its [continue] and [break]. *)
Fixpoint scan_periods (commit_time : datetime)
    (branch_periods : list BranchPeriod) (assigned_branch : str) : str :=
  match branch_periods with
  | [] => assigned_branch
  | period :: rest =>
      let merge_time := merge_time period in
      let branch_name := period_branch period in
      if contains (lit "cursor/") branch_name
         || contains (lit "integrate-checklists") branch_name
      then scan_periods commit_time rest assigned_branch
      else
        let time_diff := merge_time - commit_time in
        if (0 <=? time_diff) && (time_diff <=? 2 * 3600)
        then branch_name
        else scan_periods commit_time rest assigned_branch
  end.

(** The branch the second loop gives to one commit, lines 140-169. *)
Definition assigned_branch (merge_branches : dict MergeInfo)
    (branch_periods : list BranchPeriod) (commit : Commit) : str :=
  match extract_branch_from_refs (refs commit) with
  | Some ((_ :: _) as refs_branch) => refs_branch
  | _ =>
      if dict_mem (hash commit) merge_branches then lit "main"
      else scan_periods (timestamp commit) branch_periods (lit "main")
  end.

(** One iteration of the second loop: the dictionary behind the reference
    is read and its ['branch'] written. *)
Definition assign_step (merge_branches : dict MergeInfo)
    (branch_periods : list BranchPeriod) (commits : heap) (r : nat) : heap :=
  match nth_error commits r with
  | None => commits
  | Some commit =>
      heap_set r
        (set_branch (assigned_branch merge_branches branch_periods commit)
                    commit)
        commits
  end.

(** The two values the first pass leaves behind. *)
Definition merge_pass (commits : heap)
  : dict MergeInfo * list BranchPeriod :=
  let (merge_branches, branch_periods) :=
    fold_left (merge_step commits) (sorted_refs commits) ([], []) in
  (merge_branches, sorted_by merge_time branch_periods).

(** [determine_commit_branches]: the heap after the call. *)
Definition determine_commit_branches (commits : heap) : heap :=
  let sorted_commits := sorted_refs commits in
  let (merge_branches, branch_periods) := merge_pass commits in
  fold_left (assign_step merge_branches branch_periods) sorted_commits
            commits.

(* ================================================================== *)
(** * The record parser, lines 171-230 *)

(** What [subprocess.run(cmd, check=True)] gives back: the text the log
    command wrote, or the CalledProcessError of a command that ended with
    an error status. Any other failure of the call is not caught by the
    script and ends it; it is outside the model. *)
Inductive run_result :=
| Completed (stdout : str)
| CalledProcessError.

(** [get_git_log_data], lines 7-17. *)
Definition get_git_log_data (r : run_result) : str :=
  match r with
  | Completed stdout => stdout
  | CalledProcessError => []
  end.

(** The test of line 210 that ends a file list. *)
Definition is_commit_line (next_line : str) : bool :=
  contains [SEP] next_line
  && Nat.eqb (length (hd [] (split SEP next_line))) 40.

(** The inner loop, lines 204-213, from the lines at index [i] on: the
    files collected and the lines left at the [break] or at the end. *)
Fixpoint collect_files (lines : list str) : list str * list str :=
  match lines with
  | [] => ([], [])
  | l :: rest =>
      let next_line := strip l in
      match next_line with
      | [] => collect_files rest
      | _ =>
          if is_commit_line next_line then ([], lines)
          else let (files, left) := collect_files rest in
               (next_line :: files, left)
      end
  end.

(** The outer loop, lines 180-225, from the lines at index [i] on. The
    inner loop is the local [collect]; at its [break] the outer loop goes on
    with the line that stopped it. The pattern with three leading fields is
    [len(parts) >= 3]. *)
Fixpoint parse_lines (lines : list str) : list Commit :=
  match lines with
  | [] => []
  | l :: rest =>
      let line := strip l in
      match line with
      | [] => parse_lines rest
      | _ =>
          if contains [SEP] line then
            match split SEP line with
            | hash_val :: timestamp_str :: message :: more =>
                let refs := match more with r :: _ => r | [] => [] end in
                match parse_timestamp timestamp_str with
                | None => parse_lines rest
                | Some timestamp =>
                    (fix collect (ls : list str) (files : list str)
                       : list Commit :=
                       match ls with
                       | [] =>
                           [mkCommit hash_val timestamp message refs files
                                     None]
                       | l' :: ls' =>
                           let next_line := strip l' in
                           match next_line with
                           | [] => collect ls' files
                           | _ =>
                               if is_commit_line next_line
                               then mkCommit hash_val timestamp message refs
                                             files None
                                    :: parse_lines ls
                               else collect ls' (files ++ [next_line])
                           end
                       end) rest []
                end
            | _ => parse_lines rest
            end
          else parse_lines rest
      end
  end.

(** [parse_commits], lines 171-230. *)
Definition parse_commits (r : run_result) : list Commit :=
  let git_log_data := get_git_log_data r in
  match git_log_data with
  | [] => []
  | _ =>
      let lines := split NL (strip git_log_data) in
      determine_commit_branches (parse_lines lines)
  end.

(* ================================================================== *)
(** * The timeline renderer, lines 232-288 *)

(** [sep.join(l)] *)
Fixpoint join (sep : str) (l : list str) : str :=
  match l with
  | [] => []
  | [x] => x
  | x :: l' => x ++ sep ++ join sep l'
  end.

(** [f"{n}"] for an integer. *)
Definition format_d (n : Z) : str :=
  lit (DecimalString.NilZero.string_of_int (Z.to_int n)).

(** [f"{n:02d}"]: zeros in front up to two characters. *)
Definition format_02d (n : Z) : str :=
  let s := format_d n in
  if Nat.ltb (length s) 2 then lit "0" ++ s else s.

(** [a == b] on commit dictionaries compares every key. *)
Definition option_str_eqb (a b : option str) : bool :=
  match a, b with
  | Some x, Some y => str_eqb x y
  | None, None => true
  | _, _ => false
  end.

Fixpoint list_str_eqb (a b : list str) : bool :=
  match a, b with
  | [], [] => true
  | x :: a', y :: b' => str_eqb x y && list_str_eqb a' b'
  | _, _ => false
  end.

Definition commit_eqb (a b : Commit) : bool :=
  str_eqb (hash a) (hash b)
  && (timestamp a =? timestamp b)
  && str_eqb (message a) (message b)
  && str_eqb (refs a) (refs b)
  && list_str_eqb (files a) (files b)
  && option_str_eqb (branch a) (branch b).

(** Lower case of the letters A-Z. The renderer only asks whether
    [message.lower()] contains ["merge"]; in the Unicode database no
    character outside A-Z has one of the letters m, e, r, g in its lower
    case, so for that question the full mapping and this one agree. *)
Definition lower_ascii (c : char) : char :=
  if ((65 <=? c) && (c <=? 90))%N then (c + 32)%N else c.

(** The time line of one record, lines 248-263. The differences are whole
    seconds, on which the floating-point [total_seconds], [//] and [%] are
    exact. *)
Definition time_line (first commit : Commit)
    (start_time prev_time : datetime) : str :=
  let time_diff := timestamp commit - start_time in
  let hours := time_diff / 3600 in
  let minutes := (time_diff mod 3600) / 60 in
  let delta_diff := timestamp commit - prev_time in
  let delta_hours := delta_diff / 3600 in
  let delta_minutes := (delta_diff mod 3600) / 60 in
  if commit_eqb commit first then lit "time: 00:00"
  else
    let delta_total_minutes := delta_hours * 60 + delta_minutes in
    lit "time: " ++ format_02d hours ++ lit ":" ++ format_02d minutes
    ++ lit "  (+" ++ format_d delta_total_minutes ++ lit " mins)".

(** The block of one record, lines 265-283; [None] is the KeyError of a
    dictionary without ['branch']. *)
Definition render_entry (first commit : Commit)
    (start_time prev_time : datetime) : option (list str) :=
  let time_str := time_line first commit start_time prev_time in
  let is_merge :=
    startswith (lit "Merge") (message commit)
    || contains (lit "merge") (map lower_ascii (message commit)) in
  let commit_type := if is_merge then lit " [MERGE]" else [] in
  branch_name <- branch commit ;;
  Some ([time_str;
         lit "commit: " ++ hash commit ++ commit_type;
         lit "branch: " ++ branch_name;
         [];
         message commit;
         []]
        ++ map (fun file => lit "  " ++ file) (files commit)
        ++ [[]]).

(** The loop of lines 247-286 with its running [prev_time]. *)
Fixpoint render_loop (first : Commit) (start_time prev_time : datetime)
    (commits : list Commit) : option (list str) :=
  match commits with
  | [] => Some []
  | commit :: rest =>
      entry <- render_entry first commit start_time prev_time ;;
      result <- render_loop first start_time (timestamp commit) rest ;;
      Some (entry ++ result)
  end.

(** The renderer proper, lines 235-288, on the records it is given. *)
Definition render_timeline (commits : list Commit) : option str :=
  let commits := sorted_by timestamp commits in
  match commits with
  | [] => Some (lit "No commits found")
  | first :: _ =>
      let start_time := timestamp first in
      result <- render_loop first start_time start_time commits ;;
      Some (join [NL] result)
  end.

(** [format_timeline], lines 232-288. *)
Definition format_timeline (r : run_result) : option str :=
  render_timeline (parse_commits r).

(* ================================================================== *)
(** * Notions used to state the properties *)

(** The period the first loop appends for a record, if it appends one: the
    record passes the merge test and a non-empty branch name is extracted
    from its message. *)
Definition period_of (commit : Commit) : option BranchPeriod :=
  if is_merge_commit commit then
    match extract_branch_from_merge_message (message commit) with
    | Some ((_ :: _) as branch) =>
        Some (mkBranchPeriod branch (timestamp commit) (hash commit))
    | _ => None
    end
  else None.

Definition periods_of (commits : list Commit) : list BranchPeriod :=
  flat_map (fun c => match period_of c with Some p => [p] | None => [] end)
           commits.


(** The branch of the first record of a collection that carries [h]. *)
Definition branch_of_hash (h : str) (commits : list Commit) : option str :=
  match find (fun c => str_eqb (hash c) h) commits with
  | Some c => branch c
  | None => None
  end.

(** All keys of a collection but ['branch']. *)
Definition same_but_branch (a b : Commit) : Prop :=
  hash a = hash b /\ timestamp a = timestamp b /\ message a = message b
  /\ refs a = refs b /\ files a = files b.

(** The references in timestamp order, each with the record behind it. *)
Definition sorted_pairs (commits : heap) : list (nat * Commit) :=
  sorted_by (fun p : nat * Commit => timestamp (snd p))
            (combine (seq 0 (length commits)) commits).

(** ** The ref-extraction rule in the words of the specification

    The rule is written without the matchers of the code: a name is read
    character by character, and a marker is looked for position by
    position. *)

(** The comma-separated tokens of a refs string, each stripped. *)
Definition tokens (refs_str : str) : list str :=
  map strip (split COMMA refs_str).

(** The name at the start of a text: its characters up to the first comma
    or white space. *)
Fixpoint leading_name (s : str) : str :=
  match s with
  | [] => []
  | c :: s' =>
      if N.eqb c COMMA || is_space c then [] else c :: leading_name s'
  end.

(** The name after the leftmost [marker] that is followed by a name, not
    empty, which [accept] takes. *)
Fixpoint name_after (marker : str) (accept : str -> bool) (s : str)
  : option str :=
  match s with
  | [] => None
  | _ :: s' =>
      let name := leading_name (skipn (length marker) s) in
      if startswith marker s
         && match name with [] => false | _ :: _ => accept name end
      then Some name
      else name_after marker accept s'
  end.

(** The name after ["HEAD -> "]. *)
Definition head_name (refs_str : str) : option str :=
  name_after (lit "HEAD -> ") (fun _ => true) refs_str.

Definition not_trunk (name : str) : bool :=
  negb (str_in name [lit "HEAD"; lit "main"; lit "master"]).

(** The first [origin/<name>] whose name is not HEAD, main or master. *)
Definition origin_name (refs_str : str) : option str :=
  name_after (lit "origin/") not_trunk refs_str.

(** The five strategies in their order of priority, each tried only when
    the ones before it gave nothing. *)
Definition refs_rule (refs_str : str) : option str :=
  let s := strip refs_str in
  match head_name s with
  | Some name => Some name
  | None =>
  match origin_name s with
  | Some name => Some name
  | None =>
  match find (fun token =>
                negb (startswith (lit "origin/") token)
                && negb (str_in token
                           [[]; lit "refs/stash"; lit "main"; lit "master"]))
             (tokens s) with
  | Some token => Some token
  | None =>
      if existsb (contains (lit "main")) (tokens s) then Some (lit "main")
      else if existsb (contains (lit "master")) (tokens s)
      then Some (lit "master")
      else None
  end end end.

(** ** Timestamp strings *)

(** The character of a digit 0..9. *)
Definition digit_char (k : Z) : char := Z.to_N (48 + k).

(** [f"{n:02d}"] and [f"{n:04d}"] for numbers of at most that many
    digits. *)
Definition two_digits (n : Z) : str :=
  [digit_char (n / 10); digit_char (n mod 10)].

Definition four_digits (n : Z) : str :=
  two_digits (n / 100) ++ two_digits (n mod 100).

(** [YYYY-MM-DD] *)
Definition iso_date (year month day : Z) : str :=
  four_digits year ++ [45%N] ++ two_digits month ++ [45%N]
  ++ two_digits day.

(** [HH:MM:SS] *)
Definition iso_time (hour minute second : Z) : str :=
  two_digits hour ++ [58%N] ++ two_digits minute ++ [58%N]
  ++ two_digits second.

(** [YYYY-MM-DD HH:MM:SS] *)
Definition iso_string (year month day hour minute second : Z) : str :=
  iso_date year month day ++ [SPACE] ++ iso_time hour minute second.

Definition option_Z_eqb (a b : option Z) : bool :=
  match a, b with
  | Some x, Some y => x =? y
  | None, None => true
  | _, _ => false
  end.

Definition no_space (s : str) : bool :=
  forallb (fun c => negb (N.eqb c SPACE)) s.

(** [dt +HHMM] or [dt -HHMM] *)
Definition with_offset (dt : str) (east : bool) (hours minutes : Z) : str :=
  dt ++ [SPACE] ++ [if east then 43%N else 45%N]
  ++ two_digits hours ++ two_digits minutes.

(** The offset of [+HHMM] (east) or [-HHMM] in seconds. *)
Definition offset_seconds (east : bool) (hours minutes : Z) : Z :=
  (if east then 1 else -1) * (hours * 3600 + minutes * 60).

(** ** Sample log lines *)

(** A header line whose first field has three characters. *)
Definition short_header : str :=
  lit "abc" ++ [SEP] ++ lit "2025-07-29 10:00:00 +0000" ++ [SEP]
  ++ lit "msg".

(** A header line as the log command writes it, with empty refs. *)
Definition full_header : str :=
  lit "0123456789012345678901234567890123456789" ++ [SEP]
  ++ lit "2025-07-29 09:00:00 +0000" ++ [SEP] ++ lit "first" ++ [SEP].

(** A header line of exactly three fields. *)
Definition header_of_three_fields : str :=
  lit "0123456789012345678901234567890123456789" ++ [SEP]
  ++ lit "2025-07-29 09:00:00 +0000" ++ [SEP] ++ lit "first".

(** The same header line twice. *)
Definition duplicate_log : str := full_header ++ [NL] ++ full_header.

(** The time lines of a report. *)
Definition time_lines (report : str) : list str :=
  filter (startswith (lit "time: ")) (split NL report).

(** ** Sample records *)

(** A record without refs and files, of ASCII hash and message. *)
Definition sample (h : String.string) (t : datetime) (msg : String.string)
  : Commit :=
  mkCommit (lit h) t (lit msg) [] [] None.
Arguments sample h%_string t%_Z msg%_string.

(** Work at 10:00:00, a merge of [feat] at 11:30:00, work at 07:00:00. *)
Definition commit_A : Commit := sample "a" 36000 "work on feat".
Definition commit_B : Commit := sample "b" 41400 "Merge branch 'feat'".
Definition commit_C : Commit := sample "c" 25200 "early work".
Definition feat_history : heap := [commit_A; commit_B; commit_C].


(** Two merges at the same instant, one hour after a piece of work. *)
Definition commit_W : Commit := sample "w" 0 "work".
Definition commit_X : Commit := sample "x" 3600 "Merge branch 'left'".
Definition commit_Y : Commit := sample "y" 3600 "Merge branch 'right'".
Definition tie_history : heap := [commit_W; commit_X; commit_Y].
Definition tie_history_reordered : heap := [commit_W; commit_Y; commit_X].

(* ================================================================== *)
(** * Notions for further properties *)

(** [commit['files'] = fs] *)
Definition set_files (fs : list str) (commit : Commit) : Commit :=
  mkCommit (hash commit) (timestamp commit) (message commit) (refs commit)
           fs (branch commit).

(** The record the outer loop starts on a line, lines 181-199: the line is
    not blank, holds the separator, has at least three fields and a
    timestamp that normalises. Its files are still to be collected. *)
Definition header_of (l : str) : option Commit :=
  let line := strip l in
  match line with
  | [] => None
  | _ =>
      if contains [SEP] line then
        match split SEP line with
        | hash_val :: timestamp_str :: message :: more =>
            let refs := match more with r :: _ => r | [] => [] end in
            timestamp <- parse_timestamp timestamp_str ;;
            Some (mkCommit hash_val timestamp message refs [] None)
        | _ => None
        end
      else None
  end.

(** A line both loops skip: nothing is left of it after stripping. *)
Definition is_blank (l : str) : bool :=
  match strip l with [] => true | _ :: _ => false end.

Definition drop_blank (lines : list str) : list str :=
  filter (fun l => negb (is_blank l)) lines.

(** A line the inner loop takes as a path just as it stands. *)
Definition path_line (f : str) : Prop :=
  f <> [] /\ strip f = f /\ is_commit_line f = false.

(** A header line as the log command writes it (it starts a record and its
    first field has 40 characters), with the path lines that follow it. *)
Definition log_block (b : str * list str) : Prop :=
  header_of (fst b) <> None
  /\ is_commit_line (strip (fst b)) = true
  /\ Forall path_line (snd b).

(** The record of a block. *)
Definition block_record (b : str * list str) : list Commit :=
  match header_of (fst b) with
  | Some c => [set_files (snd b) c]
  | None => []
  end.


(* ================================================================== *)
(** * Properties of the string operations *)

Lemma str_eqb_eq (a b : str) : str_eqb a b = true <-> a = b.
Proof.
  revert b; induction a as [|x a IH]; intros [|y b]; simpl;
    try (split; [discriminate | congruence]); try tauto.
  rewrite andb_true_iff, N.eqb_eq, IH. split.
  - intros [-> ->]; reflexivity.
  - intros [= -> ->]; auto.
Qed.

(* ================================================================== *)
(** * Properties of the stable sort *)

Section StableSortFacts.
Variable A : Type.
Variable key : A -> Z.

Let le_key (x y : A) : Prop := key x <= key y.

Lemma insert_by_perm (x : A) (l : list A) :
  Permutation (insert_by key x l) (x :: l).
Proof.
  induction l as [|y l IH]; simpl; [reflexivity|].
  destruct (key x <=? key y); [reflexivity|].
  rewrite IH. apply perm_swap.
Qed.

Lemma sorted_by_perm (l : list A) : Permutation (sorted_by key l) l.
Proof.
  induction l as [|x l IH]; simpl; [reflexivity|].
  rewrite insert_by_perm. constructor. exact IH.
Qed.

Lemma insert_by_sorted (x : A) (l : list A) :
  StronglySorted le_key l -> StronglySorted le_key (insert_by key x l).
Proof.
  induction 1 as [|y l Hs IH Hall]; simpl.
  - repeat constructor.
  - destruct (key x <=? key y) eqn:E.
    + apply Z.leb_le in E. constructor; [constructor; assumption|].
      constructor; [exact E|].
      eapply Forall_impl; [|exact Hall].
      intros z Hz. unfold le_key in *. lia.
    + apply Z.leb_gt in E. constructor; [exact IH|].
      eapply Permutation_Forall; [symmetry; apply insert_by_perm|].
      constructor; [unfold le_key; lia | exact Hall].
Qed.

Lemma sorted_by_sorted (l : list A) : StronglySorted le_key (sorted_by key l).
Proof.
  induction l as [|x l IH]; simpl; [constructor|].
  apply insert_by_sorted; exact IH.
Qed.

(** Sorting what is sorted changes nothing. *)
Lemma insert_by_head (x : A) (l : list A) :
  Forall (le_key x) l -> insert_by key x l = x :: l.
Proof.
  destruct 1 as [|y l Hy _]; simpl; [reflexivity|].
  unfold le_key in Hy. apply Z.leb_le in Hy. rewrite Hy. reflexivity.
Qed.

Lemma sorted_by_id (l : list A) :
  StronglySorted le_key l -> sorted_by key l = l.
Proof.
  induction 1 as [|x l _ IH Hall]; simpl; [reflexivity|].
  rewrite IH. apply insert_by_head; exact Hall.
Qed.

(** With pairwise distinct keys the sorted list does not depend on the
    order of the input. *)
Lemma sorted_unique (l1 l2 : list A) :
  StronglySorted le_key l1 -> StronglySorted le_key l2 ->
  Permutation l1 l2 -> NoDup (map key l1) -> l1 = l2.
Proof.
  intros H1; revert l2.
  induction H1 as [|x l1 Hs1 IH Hall1]; intros l2 H2 HP HN.
  - apply Permutation_nil in HP. congruence.
  - destruct H2 as [|y l2 Hs2 Hall2].
    + symmetry in HP. apply Permutation_nil in HP. discriminate.
    + assert (x = y) as <-.
      { assert (Hx : In x (y :: l2))
          by (eapply Permutation_in; [exact HP | left; reflexivity]).
        assert (Hy : In y (x :: l1))
          by (eapply Permutation_in;
              [symmetry; exact HP | left; reflexivity]).
        destruct Hx as [Hx|Hx]; [congruence|].
        destruct Hy as [Hy|Hy]; [congruence|].
        rewrite Forall_forall in Hall1, Hall2.
        specialize (Hall1 _ Hy). specialize (Hall2 _ Hx).
        unfold le_key in *.
        assert (Hk : key y = key x) by lia.
        inversion HN as [|? ? Hnin _]; subst.
        exfalso. apply Hnin. rewrite <- Hk. apply in_map. exact Hy. }
      f_equal. apply IH.
      * exact Hs2.
      * eapply Permutation_cons_inv; exact HP.
      * inversion HN; assumption.
Qed.

Lemma sorted_by_unique (l1 l2 : list A) :
  Permutation l1 l2 -> NoDup (map key l1) ->
  sorted_by key l1 = sorted_by key l2.
Proof.
  intros HP HN. apply sorted_unique.
  - apply sorted_by_sorted.
  - apply sorted_by_sorted.
  - rewrite !sorted_by_perm. exact HP.
  - eapply Permutation_NoDup; [|exact HN].
    apply Permutation_map. symmetry. apply sorted_by_perm.
Qed.
End StableSortFacts.

(* ================================================================== *)
(** * Properties of the attribution engine *)

Lemma dict_mem_set (V : Type) (k k' : str) (v : V) (d : dict V) :
  dict_mem k (dict_set k' v d) = str_eqb k' k || dict_mem k d.
Proof.
  unfold dict_mem. induction d as [|[k0 v0] d IH]; simpl.
  - reflexivity.
  - destruct (str_eqb k0 k') eqn:E; simpl.
    + apply str_eqb_eq in E; subst k0.
      destruct (str_eqb k' k); reflexivity.
    + rewrite IH. destruct (str_eqb k0 k), (str_eqb k' k); reflexivity.
Qed.

Lemma combine_seq_lookup (h : heap) (s r : nat) (c : Commit) :
  In (r, c) (combine (seq s (length h)) h) ->
  (s <= r)%nat /\ nth_error h (r - s)%nat = Some c.
Proof.
  revert s; induction h as [|x h IH]; intros s; simpl; [tauto|].
  intros [[= <- <-]|Hin].
  - rewrite Nat.sub_diag. split; [lia | reflexivity].
  - apply IH in Hin. destruct Hin as [Hle Hn]. split; [lia|].
    replace (r - s)%nat with (S (r - S s)) by lia. exact Hn.
Qed.

Lemma map_fst_combine_seq (h : heap) (s : nat) :
  map fst (combine (seq s (length h)) h) = seq s (length h).
Proof.
  revert s; induction h as [|x h IH]; intros s; simpl; [reflexivity|].
  rewrite IH. reflexivity.
Qed.

Lemma map_snd_combine_seq (h : heap) (s : nat) :
  map snd (combine (seq s (length h)) h) = h.
Proof.
  revert s; induction h as [|x h IH]; intros s; simpl; [reflexivity|].
  rewrite IH. reflexivity.
Qed.

Lemma sorted_pairs_lookup (h : heap) (r : nat) (c : Commit) :
  In (r, c) (sorted_pairs h) -> nth_error h r = Some c.
Proof.
  intros Hin.
  apply (Permutation_in _ (sorted_by_perm _ _)) in Hin.
  apply combine_seq_lookup in Hin. rewrite Nat.sub_0_r in Hin. tauto.
Qed.

Lemma sorted_refs_perm (h : heap) :
  Permutation (sorted_refs h) (seq 0 (length h)).
Proof.
  unfold sorted_refs. rewrite <- (map_fst_combine_seq h 0) at 2.
  apply Permutation_map. apply sorted_by_perm.
Qed.

Lemma map_snd_insert_by (key : Commit -> Z) (p : nat * Commit)
    (l : list (nat * Commit)) :
  map snd (insert_by (fun q => key (snd q)) p l)
  = insert_by key (snd p) (map snd l).
Proof.
  induction l as [|q l IH]; simpl; [reflexivity|].
  destruct (key (snd p) <=? key (snd q)); simpl; [reflexivity|].
  rewrite IH. reflexivity.
Qed.

(** The records behind the sorted references are the records in stable
    timestamp order. *)
Lemma sorted_records (h : heap) :
  map snd (sorted_pairs h) = sorted_by timestamp h.
Proof.
  assert (G : forall l : list (nat * Commit),
             map snd (sorted_by (fun p => timestamp (snd p)) l)
             = sorted_by timestamp (map snd l)).
  { induction l as [|p l IH]; simpl; [reflexivity|].
    rewrite (map_snd_insert_by timestamp), IH. reflexivity. }
  unfold sorted_pairs. rewrite G, map_snd_combine_seq. reflexivity.
Qed.

(** ** The first pass *)

Lemma merge_step_period (h : heap) acc (r : nat) (c : Commit) :
  nth_error h r = Some c ->
  merge_step h acc r =
  match period_of c with
  | Some p =>
      (dict_set (hash c)
                (mkMergeInfo (period_branch p) (timestamp c) (message c))
                (fst acc),
       snd acc ++ [p])
  | None => acc
  end.
Proof.
  intros Hn. unfold merge_step, period_of. rewrite Hn.
  destruct (is_merge_commit c); [|reflexivity].
  destruct (extract_branch_from_merge_message (message c)) as [[|x b]|];
    reflexivity.
Qed.

Lemma merge_fold (h : heap) (ps : list (nat * Commit)) acc :
  (forall r c, In (r, c) ps -> nth_error h r = Some c) ->
  let out := fold_left (merge_step h) (map fst ps) acc in
  snd out = snd acc ++ periods_of (map snd ps)
  /\ forall k, dict_mem k (fst out)
               = dict_mem k (fst acc)
                 || existsb (fun c => match period_of c with
                                      | Some _ => str_eqb (hash c) k
                                      | None => false
                                      end) (map snd ps).
Proof.
  revert acc; induction ps as [|[r c] ps IH]; intros acc Hl; simpl.
  - rewrite app_nil_r. split; [reflexivity|].
    intros k. rewrite orb_false_r. reflexivity.
  - rewrite (merge_step_period h acc r (c := c))
      by (apply Hl; left; reflexivity).
    assert (Hl' : forall r c, In (r, c) ps -> nth_error h r = Some c)
      by (intros; apply Hl; right; assumption).
    specialize (IH (match period_of c with
                    | Some p =>
                        (dict_set (hash c)
                           (mkMergeInfo (period_branch p) (timestamp c)
                                        (message c)) (fst acc),
                         snd acc ++ [p])
                    | None => acc
                    end) Hl').
    simpl in IH. destruct IH as [IH1 IH2]. split.
    + rewrite IH1. unfold periods_of at 2. simpl.
      destruct (period_of c); simpl; [rewrite <- app_assoc|]; reflexivity.
    + intros k. rewrite IH2.
      destruct (period_of c); simpl.
      * rewrite dict_mem_set. rewrite orb_assoc.
        f_equal. apply orb_comm.
      * reflexivity.
Qed.

(** What the first pass computes, in terms of the records alone. *)
Lemma merge_pass_spec (h : heap) :
  snd (merge_pass h) = sorted_by merge_time (periods_of (sorted_by timestamp h))
  /\ forall k, dict_mem k (fst (merge_pass h))
               = existsb (fun c => match period_of c with
                                   | Some _ => str_eqb (hash c) k
                                   | None => false
                                   end) (sorted_by timestamp h).
Proof.
  unfold merge_pass, sorted_refs. fold (sorted_pairs h).
  destruct (merge_fold h (sorted_pairs h) ([], [])
              (sorted_pairs_lookup h)) as [H1 H2].
  destruct (fold_left (merge_step h) (map fst (sorted_pairs h)) ([], []))
    as [mb bp]. simpl in *.
  rewrite sorted_records in H1, H2. split.
  - rewrite H1. reflexivity.
  - intros k. rewrite H2. reflexivity.
Qed.

Lemma period_of_fields (c : Commit) (p : BranchPeriod) :
  period_of c = Some p -> merge_time p = timestamp c /\ merge_hash p = hash c.
Proof.
  unfold period_of. destruct (is_merge_commit c); [|discriminate].
  destruct (extract_branch_from_merge_message (message c)) as [[|x b]|];
    try discriminate.
  intros [= <-]. split; reflexivity.
Qed.

Lemma periods_of_sorted (l : list Commit) :
  StronglySorted (fun a b => timestamp a <= timestamp b) l ->
  StronglySorted (fun p q => merge_time p <= merge_time q) (periods_of l).
Proof.
  induction 1 as [|c l _ IH Hall]; [constructor|].
  unfold periods_of. simpl. fold (periods_of l).
  destruct (period_of c) as [p|] eqn:Ep; [|exact IH].
  simpl. constructor; [exact IH|].
  apply Forall_forall. intros q Hq.
  apply in_flat_map in Hq. destruct Hq as [m [Hm Hq]].
  destruct (period_of m) as [q'|] eqn:Em; simpl in Hq; [|tauto].
  destruct Hq as [<-|[]].
  rewrite Forall_forall in Hall. specialize (Hall m Hm).
  apply period_of_fields in Ep, Em. destruct Ep as [-> _], Em as [-> _].
  exact Hall.
Qed.

(** The periods come out of the first loop in merge-time order already:
    the sort of line 135 finds nothing to move. *)
Lemma merge_pass_periods (h : heap) :
  snd (merge_pass h) = periods_of (sorted_by timestamp h).
Proof.
  rewrite (proj1 (merge_pass_spec h)). apply sorted_by_id.
  apply periods_of_sorted. apply sorted_by_sorted.
Qed.

(** ** The second pass *)

Lemma nth_error_heap_set (h : heap) (r i : nat) (c : Commit) :
  nth_error (heap_set r c h) i
  = if Nat.eqb i r
    then match nth_error h r with Some _ => Some c | None => None end
    else nth_error h i.
Proof.
  revert r i; induction h as [|x h IH]; intros [|r] [|i]; simpl;
    try reflexivity.
  - destruct (Nat.eqb i r); reflexivity.
  - apply IH.
Qed.

Section SecondPass.
Variable merge_branches : dict MergeInfo.
Variable branch_periods : list BranchPeriod.

Let upd (c : Commit) : Commit :=
  set_branch (assigned_branch merge_branches branch_periods c) c.

Lemma nth_error_assign_step (h : heap) (r i : nat) :
  nth_error (assign_step merge_branches branch_periods h r) i
  = if Nat.eqb i r then option_map upd (nth_error h r)
    else nth_error h i.
Proof.
  unfold assign_step. destruct (nth_error h r) as [c|] eqn:E.
  - rewrite nth_error_heap_set, E. reflexivity.
  - destruct (Nat.eqb i r) eqn:Ei; [|reflexivity].
    apply Nat.eqb_eq in Ei; subst i. exact E.
Qed.

(** Every reference is written once, from the record it still holds. *)
Lemma assign_fold (rs : list nat) (h : heap) (i : nat) :
  NoDup rs ->
  nth_error (fold_left (assign_step merge_branches branch_periods) rs h) i
  = if existsb (Nat.eqb i) rs then option_map upd (nth_error h i)
    else nth_error h i.
Proof.
  revert h; induction rs as [|r rs IH]; intros h HN; simpl.
  - reflexivity.
  - inversion HN as [|? ? Hnin HN']; subst.
    rewrite (IH _ HN'), !nth_error_assign_step.
    destruct (Nat.eqb i r) eqn:Ei; simpl.
    + apply Nat.eqb_eq in Ei; subst i.
      destruct (existsb (Nat.eqb r) rs) eqn:Ex; [|reflexivity].
      exfalso. apply Hnin. apply existsb_exists in Ex.
      destruct Ex as [x [Hx Hrx]]. apply Nat.eqb_eq in Hrx. congruence.
    + reflexivity.
Qed.
End SecondPass.

(** The engine as a function of the records: each record keeps its place
    and receives the branch [assigned_branch] computes for it from the
    dictionary and the periods of the first pass. *)
Lemma determine_commit_branches_map (h : heap) :
  determine_commit_branches h
  = map (fun c =>
           set_branch
             (assigned_branch (fst (merge_pass h)) (snd (merge_pass h)) c) c)
        h.
Proof.
  unfold determine_commit_branches.
  destruct (merge_pass h) as [mb bp]; simpl.
  apply nth_error_ext; intros i.
  rewrite assign_fold.
  - rewrite nth_error_map.
    destruct (existsb (Nat.eqb i) (sorted_refs h)) eqn:Ex; [reflexivity|].
    destruct (nth_error h i) as [c|] eqn:En; [|reflexivity].
    exfalso.
    assert (Hi : In i (sorted_refs h)).
    { eapply Permutation_in; [symmetry; apply sorted_refs_perm|].
      apply in_seq. split; [lia|]. simpl.
      apply nth_error_Some. congruence. }
    assert (existsb (Nat.eqb i) (sorted_refs h) = true)
      by (apply existsb_exists; exists i; split;
          [exact Hi | apply Nat.eqb_refl]).
    congruence.
  - eapply Permutation_NoDup; [symmetry; apply sorted_refs_perm|].
    apply seq_NoDup.
Qed.





Lemma nth_error_attributed (h : heap) (i : nat) (c : Commit) :
  nth_error h i = Some c ->
  nth_error (determine_commit_branches h) i
  = Some (set_branch
            (assigned_branch (fst (merge_pass h)) (snd (merge_pass h)) c) c).
Proof.
  intros Hn. rewrite determine_commit_branches_map, nth_error_map, Hn.
  reflexivity.
Qed.

(** ** The claims on the engine *)

(** C10. The attribution engine writes the key ['branch'] and nothing else:
    the collection keeps its length, and the record at every position keeps
    its hash, timestamp, message, refs and files. *)
Theorem attribution_frame (commits : heap) :
  length (determine_commit_branches commits) = length commits
  /\ Forall2 same_but_branch commits (determine_commit_branches commits).
Proof.
  rewrite determine_commit_branches_map. split.
  - apply length_map.
  - generalize (fst (merge_pass commits)) (snd (merge_pass commits)).
    intros mb bp. induction commits as [|c l IH]; simpl; constructor.
    + unfold same_but_branch. simpl. tauto.
    + exact IH.
Qed.





Lemma existsb_perm (A : Type) (f : A -> bool) (l l' : list A) :
  Permutation l l' -> existsb f l = existsb f l'.
Proof.
  intros HP.
  destruct (existsb f l) eqn:E, (existsb f l') eqn:E'; try reflexivity.
  - apply existsb_exists in E. destruct E as [x [Hx Hf]].
    assert (existsb f l' = true)
      by (apply existsb_exists; exists x; split;
          [eapply Permutation_in; eassumption | exact Hf]).
    congruence.
  - apply existsb_exists in E'. destruct E' as [x [Hx Hf]].
    assert (existsb f l = true)
      by (apply existsb_exists; exists x; split;
          [eapply Permutation_in; [symmetry|]; eassumption | exact Hf]).
    congruence.
Qed.

Lemma periods_of_perm (l l' : list Commit) :
  Permutation l l' -> Permutation (periods_of l) (periods_of l').
Proof. intros HP. unfold periods_of. rewrite HP. reflexivity. Qed.

(** Reordering the records leaves both results of the first pass alone
    when no two periods have the same merge time. *)
Lemma merge_pass_perm (h h' : heap) :
  Permutation h h' ->
  NoDup (map merge_time (periods_of h)) ->
  snd (merge_pass h) = snd (merge_pass h')
  /\ forall k, dict_mem k (fst (merge_pass h))
               = dict_mem k (fst (merge_pass h')).
Proof.
  intros HP HN.
  destruct (merge_pass_spec h) as [H1 H2].
  destruct (merge_pass_spec h') as [H1' H2'].
  assert (HS : Permutation (sorted_by timestamp h) (sorted_by timestamp h'))
    by (rewrite !sorted_by_perm; exact HP).
  split.
  - rewrite H1, H1'. apply sorted_by_unique.
    + apply periods_of_perm. exact HS.
    + eapply Permutation_NoDup; [|exact HN].
      apply Permutation_map. apply periods_of_perm.
      symmetry. apply sorted_by_perm.
  - intros k. rewrite H2, H2'. apply existsb_perm. exact HS.
Qed.

(** C3, as the code has it. The engine is a function of the collection, and
    reordering the collection gives every record the same branch provided
    no two merge records with an extracted branch share a timestamp. *)
Theorem attribution_order_insensitive (commits commits' : heap)
    (i j : nat) (c : Commit) :
  Permutation commits commits' ->
  NoDup (map merge_time (periods_of commits)) ->
  nth_error commits i = Some c ->
  nth_error commits' j = Some c ->
  nth_error (determine_commit_branches commits) i
  = nth_error (determine_commit_branches commits') j.
Proof.
  intros HP HN Hi Hj.
  rewrite (nth_error_attributed _ _ Hi), (nth_error_attributed _ _ Hj).
  destruct (merge_pass_perm HP HN) as [Hp Hm].
  unfold assigned_branch. rewrite Hp, Hm. reflexivity.
Qed.

(** Work one hour before a merge, listed after it: both orders give the
    record the branch ["feat"]. *)
Lemma attribution_order_insensitive_witness :
  nth_error (determine_commit_branches [commit_A; commit_B]) 0
  = nth_error (determine_commit_branches [commit_B; commit_A]) 1.
Proof.
  apply (@attribution_order_insensitive [commit_A; commit_B]
           [commit_B; commit_A] 0 1 commit_A).
  - apply perm_swap.
  - repeat constructor. simpl. tauto.
  - reflexivity.
  - reflexivity.
Defined.

(** C3 as stated fails. Two merges made at the same instant are scanned in
    the order of the collection, so the work that precedes both is assigned
    ["left"] in one order and ["right"] in the other, although the hashes
    are pairwise distinct. *)
Lemma attribution_order_sensitive_on_ties :
  Permutation tie_history tie_history_reordered
  /\ NoDup (map hash tie_history)
  /\ branch_of_hash (lit "w") (determine_commit_branches tie_history)
     = Some (lit "left")
  /\ branch_of_hash (lit "w")
       (determine_commit_branches tie_history_reordered)
     = Some (lit "right").
Proof.
  split; [|split; [|split]].
  - unfold tie_history, tie_history_reordered.
    constructor. apply perm_swap.
  - repeat constructor; simpl; intuition discriminate.
  - vm_compute. reflexivity.
  - vm_compute. reflexivity.
Qed.

(* ================================================================== *)
(** * Properties of the ref-extraction rule *)

Lemma startswith_app (w s : str) :
  startswith w s = true <-> exists b, s = w ++ b.
Proof.
  revert s; induction w as [|x w IH]; intros s; simpl.
  - split; [intros _; exists s; reflexivity | reflexivity].
  - destruct s as [|y s].
    + split; [discriminate | intros [b Hb]; discriminate].
    + rewrite andb_true_iff, N.eqb_eq, IH. split.
      * intros [-> [b ->]]. exists b. reflexivity.
      * intros [b [= -> ->]]. split; [reflexivity | exists b; reflexivity].
Qed.

Lemma contains_app (w s : str) :
  contains w s = true <-> exists a b, s = a ++ w ++ b.
Proof.
  induction s as [|y s IH].
  - simpl. rewrite orb_false_r, startswith_app. split.
    + intros [b Hb]. exists [], b. exact Hb.
    + intros [a [b Hab]]. destruct a; simpl in Hab.
      * exists b. exact Hab.
      * discriminate.
  - change (contains w (y :: s))
      with (startswith w (y :: s) || contains w s).
    rewrite orb_true_iff, startswith_app, IH. split.
    + intros [[b Hb]|[a [b Hab]]].
      * exists [], b. exact Hb.
      * exists (y :: a), b. simpl. rewrite Hab. reflexivity.
    + intros [a [b Hab]]. destruct a as [|z a]; simpl in Hab.
      * left. exists b. exact Hab.
      * right. injection Hab as <- Hs. exists a, b. exact Hs.
Qed.


Lemma strip_prefix_none (p s : str) :
  startswith p s = false -> strip_prefix p s = None.
Proof.
  revert s; induction p as [|x p IH]; intros [|y s]; simpl;
    try discriminate; try reflexivity.
  destruct (N.eqb x y); simpl; [apply IH | reflexivity].
Qed.


Lemma contains_cons_false (p : str) (c : char) (s : str) :
  contains p (c :: s) = false ->
  startswith p (c :: s) = false /\ contains p s = false.
Proof.
  change (contains p (c :: s)) with (startswith p (c :: s) || contains p s).
  apply orb_false_iff.
Qed.




Section WordInTokens.
(** A word without comma that neither starts nor ends with white space,
    such as ["main"] and ["master"]. *)
Variable w : str.
Hypothesis w_no_comma : forallb (fun c => negb (N.eqb c COMMA)) w = true.
Hypothesis w_first :
  match w with [] => False | x :: _ => is_space x = false end.
Hypothesis w_last :
  match rev w with [] => False | x :: _ => is_space x = false end.





End WordInTokens.












Lemma leading_name_spec (r : str) :
  exists b, r = leading_name r ++ b
            /\ forallb name_char (leading_name r) = true
            /\ match b with [] => True | x :: _ => name_char x = false end.
Proof.
  induction r as [|c r [b [Hr [Hall Hb]]]].
  - exists []. simpl. auto.
  - cbn [leading_name].
    destruct (N.eqb c COMMA) eqn:E1, (is_space c) eqn:E2; cbn [orb];
      try (exists (c :: r); cbn [app forallb];
           split; [reflexivity|]; split; [reflexivity|];
           unfold name_char; rewrite E1, E2; reflexivity).
    exists b. cbn [app forallb]. rewrite <- Hr.
    split; [reflexivity|]. split; [|exact Hb].
    unfold name_char at 1. rewrite E1, E2. exact Hall.
Qed.

Lemma skipn_marker (marker b : str) : skipn (length marker) (marker ++ b) = b.
Proof. induction marker as [|x m IH]; [reflexivity | exact IH]. Qed.

(** What [name_after] finds: an occurrence of the marker followed by a
    non-empty name that is accepted, the name being all the characters up
    to the next comma or white space, and no such occurrence further to
    the left. *)
Lemma name_after_leftmost (marker : str) (accept : str -> bool)
    (s n : str) :
  name_after marker accept s = Some n ->
  exists a b,
    s = a ++ marker ++ n ++ b
    /\ n <> [] /\ accept n = true /\ forallb name_char n = true
    /\ match b with [] => True | x :: _ => name_char x = false end
    /\ forall a' b', s = a' ++ marker ++ b' ->
                     (length a' < length a)%nat ->
                     leading_name b' = []
                     \/ accept (leading_name b') = false.
Proof.
  induction s as [|c s IH]; [discriminate|]. cbn [name_after].
  destruct (startswith marker (c :: s)
            && match leading_name (skipn (length marker) (c :: s)) with
               | [] => false
               | _ :: _ =>
                   accept (leading_name (skipn (length marker) (c :: s)))
               end) eqn:E.
  - intros [= <-]. apply andb_true_iff in E. destruct E as [Es Ea].
    apply startswith_app in Es. destruct Es as [r Hr].
    rewrite Hr, skipn_marker in *.
    destruct (leading_name_spec r) as [b [Hrb [Hall Hb]]].
    exists [], b. split; [simpl; rewrite <- Hrb; reflexivity|].
    destruct (leading_name r); [discriminate|].
    repeat split; auto; try discriminate.
    intros a' b' _ Hlt. simpl in Hlt. lia.
  - intros H. destruct (IH H) as [a [b [Hs [H1 [H2 [H3 [H4 H5]]]]]]].
    exists (c :: a), b. split; [simpl; rewrite <- Hs; reflexivity|].
    repeat split; auto.
    intros a' b' Ha' Hlt. destruct a' as [|c' a'].
    + simpl in Ha'.
      assert (Es : startswith marker (c :: s) = true)
        by (apply startswith_app; eauto).
      rewrite Es, Ha', skipn_marker in E. simpl in E.
      destruct (leading_name b'); auto.
    + injection Ha' as _ Ha'. apply (H5 a' b' Ha'). simpl in Hlt. lia.
Qed.

(** When [name_after] finds nothing, no occurrence of the marker is followed
    by an accepted name. *)
Lemma name_after_nothing (marker : str) (accept : str -> bool) (s : str) :
  name_after marker accept s = None ->
  forall a b, s = a ++ marker ++ b ->
              leading_name b = [] \/ accept (leading_name b) = false.
Proof.
  induction s as [|c s IH]; cbn [name_after].
  - intros _ a b H. symmetry in H. apply app_eq_nil in H.
    destruct H as [_ H]. apply app_eq_nil in H. destruct H as [_ ->].
    left. reflexivity.
  - destruct (_ && _) eqn:E; [discriminate|]. intros H a b Hs.
    destruct a as [|c' a].
    + simpl in Hs.
      assert (Es : startswith marker (c :: s) = true)
        by (apply startswith_app; eauto).
      rewrite Es, Hs, skipn_marker in E. simpl in E.
      destruct (leading_name b); auto.
    + injection Hs as _ Hs. exact (IH H a b Hs).
Qed.

(** The rule itself on some refs strings: the second [origin/] name when
    the first is main, the token when no strategy before it applies, the
    whole name of a doubled marker. *)
Lemma refs_rule_examples :
  refs_rule (lit "HEAD -> dev") = Some (lit "dev")
  /\ refs_rule (lit "origin/main, origin/feature-y")
     = Some (lit "feature-y")
  /\ refs_rule (lit "tag: v1, origin/main") = Some (lit "tag: v1")
  /\ refs_rule (lit "origin/origin/main, x") = Some (lit "origin/main")
  /\ refs_rule (lit "origin/main, origin/HEAD") = Some (lit "main").
Proof. repeat split; reflexivity. Qed.


(* ================================================================== *)
(** * Properties of the timestamp normaliser *)

Lemma forallb_range (P : Z -> bool) (n : nat) :
  forallb P (map Z.of_nat (seq 0 n)) = true ->
  forall k, 0 <= k < Z.of_nat n -> P k = true.
Proof.
  intros H k Hk. rewrite forallb_forall in H. apply H.
  apply in_map_iff. exists (Z.to_nat k). split; [lia|].
  apply in_seq. lia.
Qed.

Lemma option_Z_eqb_eq a b : option_Z_eqb a b = true -> a = b.
Proof.
  destruct a, b; simpl; try discriminate; try reflexivity.
  intros H. apply Z.eqb_eq in H. congruence.
Qed.

Lemma digit_char_facts (k : Z) :
  0 <= k <= 9 ->
  is_space (digit_char k) = false
  /\ N.eqb (digit_char k) SPACE = false
  /\ N.eqb 43 (digit_char k) = false
  /\ N.eqb 45 (digit_char k) = false.
Proof.
  intros Hk.
  pose (P := fun k => negb (is_space (digit_char k))
                      && negb (N.eqb (digit_char k) SPACE)
                      && negb (N.eqb 43 (digit_char k))
                      && negb (N.eqb 45 (digit_char k))).
  assert (H : P k = true)
    by (apply (@forallb_range P 10); [vm_compute; reflexivity | lia]).
  unfold P in H. rewrite !andb_true_iff, !negb_true_iff in H. tauto.
Qed.

Lemma digits2_two_digits (n : Z) :
  0 <= n <= 99 ->
  digits2 (digit_char (n / 10)) (digit_char (n mod 10)) = Some n.
Proof.
  intros Hn. apply option_Z_eqb_eq.
  apply (@forallb_range
           (fun n => option_Z_eqb
                       (digits2 (digit_char (n / 10)) (digit_char (n mod 10)))
                       (Some n)) 100); [vm_compute; reflexivity | lia].
Qed.

Lemma py_int_two_digits (n : Z) :
  0 <= n <= 99 -> py_int (two_digits n) = Some n.
Proof.
  intros Hn. apply option_Z_eqb_eq.
  apply (@forallb_range
           (fun n => option_Z_eqb (py_int (two_digits n)) (Some n)) 100);
    [vm_compute; reflexivity | lia].
Qed.

Lemma rsplit1_no_space (s : str) :
  no_space s = true -> rsplit1 SPACE s = [s].
Proof.
  induction s as [|c s IH]; simpl; [reflexivity|].
  intros H. apply andb_true_iff in H. destruct H as [Hc Hs].
  rewrite (IH Hs). apply negb_true_iff in Hc. rewrite Hc. reflexivity.
Qed.

Lemma rsplit1_last_space (a b : str) :
  no_space b = true -> rsplit1 SPACE (a ++ SPACE :: b) = [a; b].
Proof.
  intros Hb. induction a as [|c a IH]; simpl.
  - rewrite (@rsplit1_no_space b Hb). reflexivity.
  - rewrite IH. reflexivity.
Qed.

Lemma contains_absent_head (x : char) (p s : str) :
  forallb (fun c => negb (N.eqb x c)) s = true ->
  contains (x :: p) s = false.
Proof.
  induction s as [|c s IH]; [reflexivity|].
  cbn [forallb]. intros H. apply andb_true_iff in H. destruct H as [Hc Hs].
  change (contains (x :: p) (c :: s))
    with (N.eqb x c && startswith p s || contains (x :: p) s).
  apply negb_true_iff in Hc. rewrite Hc, (IH Hs). reflexivity.
Qed.

(** A space followed by [x] does not occur in a string whose only space is
    followed by something else. *)
Lemma contains_space_then (x y : char) (a b : str) :
  forallb (fun c => negb (N.eqb SPACE c)) a = true ->
  forallb (fun c => negb (N.eqb SPACE c)) (y :: b) = true ->
  N.eqb x y = false ->
  contains [SPACE; x] (a ++ SPACE :: y :: b) = false.
Proof.
  intros Ha Hb Hxy. induction a as [|c a IH].
  - simpl app.
    change (contains [SPACE; x] (SPACE :: y :: b))
      with (N.eqb SPACE SPACE && (N.eqb x y && true)
            || contains [SPACE; x] (y :: b)).
    rewrite Hxy, (@contains_absent_head SPACE [x] (y :: b) Hb). reflexivity.
  - cbn [forallb] in Ha. apply andb_true_iff in Ha. destruct Ha as [Hc Ha].
    change (contains [SPACE; x] ((c :: a) ++ SPACE :: y :: b))
      with (N.eqb SPACE c && startswith [x] (a ++ SPACE :: y :: b)
            || contains [SPACE; x] (a ++ SPACE :: y :: b)).
    apply negb_true_iff in Hc. rewrite Hc, (IH Ha). reflexivity.
Qed.

Lemma days_in_month_le (y m : Z) : days_in_month y m <= 31.
Proof.
  unfold days_in_month.
  destruct m as [|p|p]; try lia.
  do 4 (try destruct p as [p|p|]; try lia); destruct (is_leap y); lia.
Qed.

Lemma mk_datetime_fields (y mo d h mi s : Z) (t : datetime) :
  mk_datetime y mo d h mi s = Some t ->
  (1 <= y <= 9999 /\ 1 <= mo <= 12 /\ 1 <= d <= 31 /\ 0 <= h <= 23
   /\ 0 <= mi <= 59 /\ 0 <= s <= 59).
Proof.
  unfold mk_datetime, MINYEAR, MAXYEAR.
  destruct (_ && _) eqn:E; [|discriminate]. intros _.
  rewrite !andb_true_iff, !Z.leb_le in E.
  pose proof (days_in_month_le y mo). lia.
Qed.

Lemma digits4_four_digits (n : Z) :
  0 <= n <= 9999 ->
  digits4 (digit_char (n / 100 / 10)) (digit_char ((n / 100) mod 10))
          (digit_char (n mod 100 / 10)) (digit_char ((n mod 100) mod 10))
  = Some n.
Proof.
  intros Hn. unfold digits4.
  rewrite !digits2_two_digits by (Z.div_mod_to_equations; lia).
  f_equal. Z.div_mod_to_equations; lia.
Qed.

(** Reading back a date-time written in the layout of the log. *)
Lemma fromisoformat_iso_string (y mo d h mi s : Z) (t : datetime) :
  mk_datetime y mo d h mi s = Some t ->
  fromisoformat (iso_string y mo d h mi s) = Some t.
Proof.
  intros Ht. pose proof (mk_datetime_fields _ _ _ _ _ _ Ht) as F.
  unfold iso_string, iso_date, iso_time, four_digits, two_digits.
  cbn [app].
  unfold fromisoformat. cbn [N.eqb Pos.eqb andb].
  rewrite digits4_four_digits by lia.
  rewrite !digits2_two_digits by lia.
  exact Ht.
Qed.

Lemma strip_same (s : str) :
  match s with [] => True | x :: _ => is_space x = false end ->
  match rev s with [] => True | z :: _ => is_space z = false end ->
  strip s = s.
Proof.
  intros Hx Hz. unfold strip, rstrip.
  assert (Hl : lstrip s = s).
  { destruct s as [|x s]; [reflexivity|]. unfold lstrip. simpl.
    rewrite Hx. reflexivity. }
  rewrite Hl. destruct (rev s) as [|z r] eqn:E.
  - simpl. rewrite <- (rev_involutive s), E. reflexivity.
  - unfold lstrip. simpl drop_while. rewrite Hz.
    rewrite <- E. apply rev_involutive.
Qed.

Ltac digit_range := Z.div_mod_to_equations; lia.

(** Rewrites the tests on digit characters that occur in the goal. *)
Ltac digit_facts :=
  repeat match goal with
         | |- context [is_space (digit_char ?k)] =>
             rewrite (proj1 (@digit_char_facts k ltac:(digit_range)))
         | |- context [N.eqb (digit_char ?k) SPACE] =>
             rewrite (proj1 (proj2
                        (@digit_char_facts k ltac:(digit_range))))
         | |- context [N.eqb SPACE (digit_char ?k)] =>
             rewrite (N.eqb_sym SPACE (digit_char k))
         | |- context [N.eqb 43 (digit_char ?k)] =>
             rewrite (proj1 (proj2 (proj2
                        (@digit_char_facts k ltac:(digit_range)))))
         | |- context [N.eqb 45 (digit_char ?k)] =>
             rewrite (proj2 (proj2 (proj2
                        (@digit_char_facts k ltac:(digit_range)))))
         end.

Section IsoStrings.
Variables (y mo d h mi s : Z) (t : datetime).
Hypothesis Ht : mk_datetime y mo d h mi s = Some t.

Let F := mk_datetime_fields _ _ _ _ _ _ Ht.

Lemma iso_date_no_space :
  forallb (fun c => negb (N.eqb SPACE c)) (iso_date y mo d) = true.
Proof.
  pose proof F.
  unfold iso_date, four_digits, two_digits. cbn [app forallb].
  digit_facts. reflexivity.
Qed.

Lemma iso_time_no_space :
  forallb (fun c => negb (N.eqb SPACE c)) (iso_time h mi s) = true.
Proof.
  pose proof F.
  unfold iso_time, two_digits. cbn [app forallb].
  digit_facts. reflexivity.
Qed.

Lemma iso_string_strip :
  strip (iso_string y mo d h mi s) = iso_string y mo d h mi s.
Proof.
  pose proof F.
  apply strip_same;
    unfold iso_string, iso_date, iso_time, four_digits, two_digits;
    cbn [app rev]; digit_facts; reflexivity.
Qed.

Lemma iso_string_no_sign (x : char) :
  N.eqb x (digit_char (h / 10)) = false ->
  contains [SPACE; x] (iso_string y mo d h mi s) = false.
Proof.
  intros Hx. unfold iso_string. cbn [app].
  pose proof iso_time_no_space as HT. revert HT.
  unfold iso_time, two_digits. cbn [app]. intros HT.
  apply contains_space_then;
    [exact iso_date_no_space | exact HT | exact Hx].
Qed.

Lemma parse_timestamp_iso_string :
  parse_timestamp (iso_string y mo d h mi s) = Some t.
Proof.
  pose proof F.
  unfold parse_timestamp. rewrite iso_string_strip.
  change (lit " +") with [SPACE; 43%N].
  change (lit " -") with [SPACE; 45%N].
  rewrite !iso_string_no_sign by (digit_facts; reflexivity).
  apply fromisoformat_iso_string. exact Ht.
Qed.
End IsoStrings.

Section OffsetStrings.
Variables (y mo d h mi s : Z) (t : datetime) (east : bool) (oh om : Z).
Hypothesis Ht : mk_datetime y mo d h mi s = Some t.
Hypothesis Hoh : 0 <= oh <= 23.
Hypothesis Hom : 0 <= om <= 59.

Let F := mk_datetime_fields _ _ _ _ _ _ Ht.
Let iso := iso_string y mo d h mi s.
Let sign_char : char := if east then 43%N else 45%N.

Lemma with_offset_strip :
  strip (with_offset iso east oh om) = with_offset iso east oh om.
Proof.
  pose proof F.
  apply strip_same;
    unfold with_offset, iso, iso_string, iso_date, iso_time, four_digits,
      two_digits;
    cbn [app rev]; digit_facts; reflexivity.
Qed.

Lemma with_offset_signed :
  contains (lit " +") (with_offset iso east oh om)
  || contains (lit " -") (with_offset iso east oh om) = true.
Proof.
  apply orb_true_iff. unfold with_offset. destruct east; [left | right];
    apply contains_app; exists iso, (two_digits oh ++ two_digits om);
    reflexivity.
Qed.

Lemma with_offset_rsplit :
  rsplit1 SPACE (with_offset iso east oh om)
  = [iso; sign_char :: two_digits oh ++ two_digits om].
Proof.
  unfold with_offset. cbn [app]. apply rsplit1_last_space.
  unfold no_space, two_digits. cbn [app forallb].
  digit_facts. destruct east; reflexivity.
Qed.

Lemma parse_timestamp_with_offset :
  parse_timestamp (with_offset iso east oh om)
  = (let utc := t - offset_seconds east oh om in
     if (0 <=? utc) && (utc <=? MAX_DATETIME) then Some utc else None).
Proof.
  unfold parse_timestamp.
  rewrite with_offset_strip, with_offset_signed, with_offset_rsplit.
  unfold iso. rewrite (fromisoformat_iso_string _ _ _ _ _ _ Ht).
  cbn [skipn firstn app two_digits].
  fold (two_digits oh). fold (two_digits om).
  rewrite !py_int_two_digits by lia.
  assert (Hs : forall rest,
             (if startswith (lit "+") (sign_char :: rest) then 1 else -1)
             = (if east then 1 else -1))
    by (intros rest; unfold sign_char; destruct east; reflexivity).
  rewrite Hs. unfold timezone.
  assert (Hr : (-1440 <? (if east then 1 else -1) * (oh * 60 + om))
               && ((if east then 1 else -1) * (oh * 60 + om) <? 1440)
               = true).
  { apply andb_true_iff. rewrite !Z.ltb_lt. destruct east; lia. }
  rewrite Hr. unfold to_naive_utc.
  replace ((if east then 1 else -1) * (oh * 60 + om) * 60)
    with (offset_seconds east oh om)
    by (unfold offset_seconds; destruct east; lia).
  reflexivity.
Qed.
End OffsetStrings.

(** C6, as the code has it. For a date-time [YYYY-MM-DD HH:MM:SS] of valid
    fields, the string without offset is read as that date-time; with an
    offset [+HHMM] or [-HHMM] (hours up to 23, minutes up to 59) the result
    is the date-time minus the signed offset when that instant lies between
    0001-01-01 00:00:00 and 9999-12-31 23:59:59, and no result otherwise. *)
Theorem parse_timestamp_normalises (y mo d h mi s : Z) (t : datetime)
    (east : bool) (oh om : Z) :
  mk_datetime y mo d h mi s = Some t ->
  0 <= oh <= 23 ->
  0 <= om <= 59 ->
  parse_timestamp (iso_string y mo d h mi s) = Some t
  /\ parse_timestamp (with_offset (iso_string y mo d h mi s) east oh om)
     = (let utc := t - offset_seconds east oh om in
        if (0 <=? utc) && (utc <=? MAX_DATETIME) then Some utc else None).
Proof.
  intros Ht Hoh Hom. split.
  - apply parse_timestamp_iso_string. exact Ht.
  - apply parse_timestamp_with_offset; assumption.
Qed.

(** 2025-07-29 22:19:01 with [+0200] is two hours earlier in UTC, with
    [-0500] five hours later. *)
Lemma parse_timestamp_normalises_witness :
  parse_timestamp (lit "2025-07-29 22:19:01 +0200")
  = Some (63889424341 - 7200)
  /\ parse_timestamp (lit "2025-07-29 22:19:01 -0500")
     = Some (63889424341 + 18000).
Proof.
  split.
  - refine (proj2 (@parse_timestamp_normalises 2025 7 29 22 19 1
                     63889424341 true 2 0 eq_refl _ _)); lia.
  - refine (proj2 (@parse_timestamp_normalises 2025 7 29 22 19 1
                     63889424341 false 5 0 eq_refl _ _)); lia.
Defined.

(** C6 as stated fails. Half past midnight on 0001-01-01 is a valid
    date-time, but two hours earlier lies before the first representable
    instant: the conversion overflows and the normaliser has no result. *)
Lemma parse_timestamp_before_first_instant :
  parse_timestamp (lit "0001-01-01 00:30:00") = Some 1800
  /\ with_offset (iso_string 1 1 1 0 30 0) true 2 0
     = lit "0001-01-01 00:30:00 +0200"
  /\ parse_timestamp (lit "0001-01-01 00:30:00 +0200") = None.
Proof. repeat split; vm_compute; reflexivity. Qed.

(* ================================================================== *)
(** * Properties of the record parser *)

Lemma split_no_sep (sep : char) (s : str) :
  contains [sep] s = false -> split sep s = [s].
Proof.
  induction s as [|c s IH]; [reflexivity|].
  intros H. apply contains_cons_false in H. destruct H as [H1 H2].
  simpl in H1. rewrite andb_true_r in H1.
  simpl. rewrite N.eqb_sym, H1, (IH H2). reflexivity.
Qed.

Lemma parse_lines_record (l : str) (rest : list str)
    (h ts m : str) (more : list str) (t : datetime) :
  split SEP (strip l) = h :: ts :: m :: more ->
  parse_timestamp ts = Some t ->
  parse_lines (l :: rest)
  = (let (files, left) := collect_files rest in
     mkCommit h t m (match more with r :: _ => r | [] => [] end) files None
     :: parse_lines left).
Proof.
  intros Hs Ht.
  assert (Hc : contains [SEP] (strip l) = true).
  { destruct (contains [SEP] (strip l)) eqn:E; [reflexivity|].
    rewrite (split_no_sep _ _ E) in Hs. discriminate. }
  cbn [parse_lines].
  destruct (strip l) as [|c0 line] eqn:El; [discriminate|].
  rewrite Hc, Hs, Ht.
  match goal with
  | |- ?F rest [] = _ =>
      assert (G : forall ls acc,
                 F ls acc
                 = (let (files, left) := collect_files ls in
                    mkCommit h t m (match more with r :: _ => r | [] => [] end)
                             (acc ++ files) None
                    :: parse_lines left))
  end.
  { induction ls as [|l' ls IH]; intros acc.
    - simpl. rewrite app_nil_r. reflexivity.
    - cbn [collect_files]. destruct (strip l') as [|c1 nl] eqn:En.
      + apply IH.
      + destruct (is_commit_line (c1 :: nl)) eqn:Ec.
        * rewrite app_nil_r. reflexivity.
        * rewrite IH. destruct (collect_files ls) as [fs left].
          rewrite <- app_assoc. reflexivity. }
  apply (G rest []).
Qed.

Lemma parse_lines_skip_short (l : str) (rest : list str) (a b : str) :
  split SEP (strip l) = [a; b] ->
  parse_lines (l :: rest) = parse_lines rest.
Proof.
  intros Hs. cbn [parse_lines].
  destruct (strip l) as [|c0 line]; [reflexivity|].
  rewrite Hs. destruct (contains [SEP] (c0 :: line)); reflexivity.
Qed.

Lemma parse_lines_bad_time (l : str) (rest : list str)
    (h ts m : str) (more : list str) :
  split SEP (strip l) = h :: ts :: m :: more ->
  parse_timestamp ts = None ->
  parse_lines (l :: rest) = parse_lines rest.
Proof.
  intros Hs Ht. cbn [parse_lines].
  destruct (strip l) as [|c0 line]; [reflexivity|].
  rewrite Hs, Ht. destruct (contains [SEP] (c0 :: line)); reflexivity.
Qed.

(** C9. A line whose stripped text has exactly three separator-delimited
    fields passes the field-count test: when its timestamp field is
    normalised, a record is built from the three fields with the empty
    string as refs and the following path lines as files. *)
Theorem three_field_header (l : str) (rest : list str) (h ts m : str) :
  split SEP (strip l) = [h; ts; m] ->
  parse_lines (l :: rest)
  = match parse_timestamp ts with
    | Some t =>
        let (files, left) := collect_files rest in
        mkCommit h t m [] files None :: parse_lines left
    | None => parse_lines rest
    end.
Proof.
  intros Hs. destruct (parse_timestamp ts) as [t|] eqn:Ht.
  - apply (parse_lines_record l rest Hs Ht).
  - apply (parse_lines_bad_time l rest Hs Ht).
Qed.

Lemma three_field_header_witness :
  parse_lines [header_of_three_fields; lit "src/a.py"]
  = [mkCommit (lit "0123456789012345678901234567890123456789")
              63889376400 (lit "first") [] [lit "src/a.py"] None].
Proof.
  exact (@three_field_header header_of_three_fields [lit "src/a.py"]
           (lit "0123456789012345678901234567890123456789")
           (lit "2025-07-29 09:00:00 +0000") (lit "first") eq_refl).
Defined.

(** C1 at a line whose first field is not 40 characters long. The test that
    ends a file list rejects the line, so after a header it is taken as a
    path; the test that starts a record has no length check, so on its own
    the same line starts a record with hash ["abc"]. *)
Theorem short_first_field_starts_record :
  is_commit_line short_header = false
  /\ parse_lines [full_header; short_header]
     = [mkCommit (lit "0123456789012345678901234567890123456789")
                 63889376400 (lit "first") [] [short_header] None]
  /\ parse_lines [short_header]
     = [mkCommit (lit "abc") 63889380000 (lit "msg") [] [] None]
  /\ parse_commits (Completed short_header)
     = [mkCommit (lit "abc") 63889380000 (lit "msg") [] []
                 (Some (lit "main"))].
Proof. repeat split; vm_compute; reflexivity. Qed.

(* ================================================================== *)
(** * Properties of the renderer *)

Lemma render_loop_total (first : Commit) (start_time prev_time : datetime)
    (commits : list Commit) :
  Forall (fun c => branch c <> None) commits ->
  exists result, render_loop first start_time prev_time commits = Some result.
Proof.
  intros H; revert prev_time; induction H as [|c l Hc _ IH]; intros prev_time.
  - exists []. reflexivity.
  - simpl. unfold render_entry.
    destruct (branch c) as [b|]; [|congruence].
    destruct (IH (timestamp c)) as [result ->]. eauto.
Qed.

Lemma attributed_have_branch (h : heap) :
  Forall (fun c => branch c <> None) (determine_commit_branches h).
Proof.
  rewrite determine_commit_branches_map. apply Forall_forall.
  intros c Hc. apply in_map_iff in Hc. destruct Hc as [c0 [<- _]].
  discriminate.
Qed.

(** C8. When the log text is empty, and so when the log command failed, no
    record is parsed and the report is the text ["No commits found"]. *)
Theorem empty_log_report (r : run_result) :
  get_git_log_data r = [] ->
  parse_commits r = []
  /\ format_timeline r = Some (lit "No commits found").
Proof.
  intros H. assert (Hp : parse_commits r = [])
    by (unfold parse_commits; rewrite H; reflexivity).
  split; [exact Hp|]. unfold format_timeline. rewrite Hp. reflexivity.
Qed.

Lemma empty_log_report_witness :
  parse_commits CalledProcessError = []
  /\ format_timeline CalledProcessError = Some (lit "No commits found").
Proof. apply (@empty_log_report CalledProcessError). reflexivity. Defined.

(** The minutes of the delta, computed from hours and minutes, are the
    delta truncated to whole minutes. *)
Lemma delta_total_minutes (delta : Z) :
  delta / 3600 * 60 + delta mod 3600 / 60 = delta / 60.
Proof. Z.div_mod_to_equations. lia. Qed.

(** The time line of a record that differs from the first one. *)
Lemma time_line_later (first commit : Commit)
    (start_time prev_time : datetime) :
  commit_eqb commit first = false ->
  time_line first commit start_time prev_time
  = lit "time: " ++ format_02d ((timestamp commit - start_time) / 3600)
    ++ lit ":" ++ format_02d ((timestamp commit - start_time) mod 3600 / 60)
    ++ lit "  (+" ++ format_d ((timestamp commit - prev_time) / 60)
    ++ lit " mins)".
Proof.
  intros H. unfold time_line. rewrite H, delta_total_minutes. reflexivity.
Qed.

(** C7 at a log that lists the same record twice. The test for the first
    record compares the dictionaries by value, so the second copy is
    rendered with the literal of the first record and not with
    ["time: 00:00  (+0 mins)"]. *)
Theorem duplicate_of_first_record_time_line :
  option_map time_lines (format_timeline (Completed duplicate_log))
  = Some [lit "time: 00:00"; lit "time: 00:00"].
Proof. vm_compute. reflexivity. Qed.

(* ================================================================== *)
(** * Further properties of the timestamp normaliser *)

Lemma drop_while_idem (ok : char -> bool) (s : str) :
  drop_while ok (drop_while ok s) = drop_while ok s.
Proof.
  induction s as [|c s IH]; [reflexivity|]. simpl.
  destruct (ok c) eqn:E; [exact IH|]. simpl. rewrite E. reflexivity.
Qed.

Lemma drop_while_head (ok : char -> bool) (s : str) :
  match drop_while ok s with [] => True | x :: _ => ok x = false end.
Proof.
  induction s as [|c s IH]; simpl; [exact I|].
  destruct (ok c) eqn:E; [exact IH | exact E].
Qed.

Lemma drop_while_suffix (ok : char -> bool) (s : str) :
  exists a, s = a ++ drop_while ok s /\ forallb ok a = true.
Proof.
  induction s as [|c s [a [IH Ha]]]; simpl.
  - exists []. split; reflexivity.
  - destruct (ok c) eqn:E.
    + exists (c :: a). simpl. rewrite E, Ha. split; [congruence | reflexivity].
    + exists []. split; reflexivity.
Qed.

Lemma drop_while_app_last (ok : char -> bool) (a : str) (x : char) :
  ok x = false -> drop_while ok (a ++ [x]) = drop_while ok a ++ [x].
Proof.
  intros Hx. induction a as [|c a IH]; simpl.
  - rewrite Hx. reflexivity.
  - destruct (ok c); [exact IH | reflexivity].
Qed.

Lemma rstrip_idem (s : str) : rstrip (rstrip s) = rstrip s.
Proof.
  unfold rstrip, lstrip. rewrite rev_involutive, drop_while_idem.
  reflexivity.
Qed.

Lemma rstrip_cons (x : char) (s : str) :
  is_space x = false -> exists u, rstrip (x :: s) = x :: u.
Proof.
  intros Hx. unfold rstrip, lstrip. simpl rev.
  rewrite (@drop_while_app_last is_space (rev s) x Hx), rev_app_distr.
  simpl. eauto.
Qed.

(** Stripping twice is stripping once. *)
Lemma strip_idem (s : str) : strip (strip s) = strip s.
Proof.
  change (strip s) with (rstrip (lstrip s)).
  pose proof (drop_while_head is_space s) as Hh. fold (lstrip s) in Hh.
  destruct (lstrip s) as [|x t]; [reflexivity|].
  destruct (@rstrip_cons x t Hh) as [u Hu].
  unfold strip. rewrite Hu. unfold lstrip. simpl drop_while. rewrite Hh.
  rewrite <- Hu. apply rstrip_idem.
Qed.

Lemma strip_infix (s : str) : exists a b, s = a ++ strip s ++ b.
Proof.
  unfold strip.
  destruct (drop_while_suffix is_space s) as [a [Ha _]]. fold (lstrip s) in Ha.
  destruct (drop_while_suffix is_space (rev (lstrip s))) as [b [Hb _]].
  exists a, (rev b). unfold rstrip at 1. fold (lstrip (rev (lstrip s))) in Hb.
  rewrite <- rev_app_distr, <- Hb, rev_involutive. exact Ha.
Qed.

Lemma strip_all_space (s : str) : forallb is_space s = true -> strip s = [].
Proof.
  intros H. unfold strip.
  assert (lstrip s = []) as ->.
  { unfold lstrip. induction s as [|c s IH]; [reflexivity|].
    simpl in *. apply andb_true_iff in H. destruct H as [-> H]. auto. }
  reflexivity.
Qed.

(** X2. White space around the timestamp string does not matter: the
    normaliser strips it first, and stripping twice is stripping once. *)
Theorem parse_timestamp_strip (s : str) :
  parse_timestamp (strip s) = parse_timestamp s.
Proof. unfold parse_timestamp. rewrite strip_idem. reflexivity. Qed.

Section WideOffsets.
Variables (y mo d h mi s : Z) (t : datetime) (east : bool) (oh om : Z).
Hypothesis Ht : mk_datetime y mo d h mi s = Some t.
Hypothesis Hoh : 0 <= oh <= 99.
Hypothesis Hom : 0 <= om <= 99.

(** The normaliser on [dt +HHMM] for any two-digit [HH] and [MM]: the
    offset is checked by [timezone] and applied. *)
Lemma parse_timestamp_any_offset :
  parse_timestamp (with_offset (iso_string y mo d h mi s) east oh om)
  = (tz <- timezone ((if east then 1 else -1) * (oh * 60 + om)) ;;
     to_naive_utc t tz).
Proof.
  pose proof (mk_datetime_fields _ _ _ _ _ _ Ht) as F.
  set (iso := iso_string y mo d h mi s).
  assert (Hstrip : strip (with_offset iso east oh om)
                   = with_offset iso east oh om).
  { apply strip_same;
      unfold with_offset, iso, iso_string, iso_date, iso_time, four_digits,
        two_digits;
      cbn [app rev]; digit_facts; reflexivity. }
  assert (Hsign : contains (lit " +") (with_offset iso east oh om)
                  || contains (lit " -") (with_offset iso east oh om)
                  = true).
  { apply orb_true_iff. unfold with_offset. destruct east; [left | right];
      apply contains_app; exists iso, (two_digits oh ++ two_digits om);
      reflexivity. }
  assert (Hsplit : rsplit1 SPACE (with_offset iso east oh om)
                   = [iso; (if east then 43%N else 45%N)
                           :: two_digits oh ++ two_digits om]).
  { unfold with_offset. cbn [app]. apply rsplit1_last_space.
    unfold no_space, two_digits. cbn [app forallb].
    digit_facts. destruct east; reflexivity. }
  unfold parse_timestamp. rewrite Hstrip, Hsign, Hsplit.
  unfold iso. rewrite (fromisoformat_iso_string _ _ _ _ _ _ Ht).
  cbn [skipn firstn app two_digits].
  fold (two_digits oh). fold (two_digits om).
  rewrite !py_int_two_digits by lia.
  assert (Hs : forall rest,
             (if startswith (lit "+")
                   ((if east then 43%N else 45%N) :: rest) then 1 else -1)
             = (if east then 1 else -1))
    by (intros rest; destruct east; reflexivity).
  rewrite Hs. reflexivity.
Qed.
End WideOffsets.

(** X3. An offset of a whole day or more, such as [+2400], is refused by
    [timezone]: the normaliser has no result and the record is dropped. *)
Theorem parse_timestamp_offset_too_large (y mo d h mi s : Z) (t : datetime)
    (east : bool) (oh om : Z) :
  mk_datetime y mo d h mi s = Some t ->
  0 <= oh <= 99 -> 0 <= om <= 99 ->
  1440 <= oh * 60 + om ->
  parse_timestamp (with_offset (iso_string y mo d h mi s) east oh om) = None.
Proof.
  intros Ht Hoh Hom Hbig.
  rewrite (@parse_timestamp_any_offset y mo d h mi s t east oh om Ht Hoh Hom).
  unfold timezone.
  destruct east.
  - replace (1 * (oh * 60 + om) <? 1440) with false
      by (symmetry; apply Z.ltb_ge; lia).
    rewrite andb_false_r. reflexivity.
  - replace (-1440 <? -1 * (oh * 60 + om)) with false
      by (symmetry; apply Z.ltb_ge; lia).
    reflexivity.
Qed.

Lemma parse_timestamp_offset_too_large_witness :
  parse_timestamp (lit "2025-07-29 22:19:01 +2400") = None.
Proof.
  refine (@parse_timestamp_offset_too_large 2025 7 29 22 19 1 63889424341
            true 24 0 eq_refl _ _ _); lia.
Defined.

(* ================================================================== *)
(** * Further properties of the two extraction rules *)

Lemma span_spec (ok : char -> bool) (s a b : str) :
  span ok s = (a, b) ->
  s = a ++ b /\ forallb ok a = true
  /\ match b with [] => True | x :: _ => ok x = false end.
Proof.
  revert a b; induction s as [|c s IH]; intros a b; simpl.
  - intros [= <- <-]. auto.
  - destruct (ok c) eqn:E.
    + destruct (span ok s) as [a' b'] eqn:Es. intros [= <- <-].
      destruct (IH _ _ eq_refl) as [-> [Ha Hb]]. simpl. rewrite E, Ha. auto.
    + intros [= <- <-]. simpl. auto.
Qed.

Lemma match_name_after_name (p s name rest : str) :
  match_name_after p s = Some (name, rest) ->
  name <> [] /\ forallb name_char name = true.
Proof.
  unfold match_name_after. destruct (strip_prefix p s) as [r|]; [|discriminate].
  destruct (span name_char r) as [a b] eqn:Es.
  destruct a as [|x a]; [discriminate|]. intros [= <- <-].
  split; [discriminate|]. apply (span_spec _ _ Es).
Qed.

Lemma re_search_some (A : Type) (m : str -> option A) (s : str) (x : A) :
  re_search m s = Some x -> exists a t, s = a ++ t /\ m t = Some x.
Proof.
  induction s as [|c s IH].
  - simpl. destruct (m []) eqn:E; [|discriminate].
    intros [= <-]. exists [], []. auto.
  - change (re_search m (c :: s))
      with (match m (c :: s) with
            | Some x => Some x
            | None => re_search m s
            end).
    destruct (m (c :: s)) eqn:E.
    + intros [= <-]. exists [], (c :: s). auto.
    + intros H. destruct (IH H) as [a [t [-> Ht]]].
      exists (c :: a), t. auto.
Qed.

Lemma findall_names (p s : str) (skip : nat) (name : str) :
  In name (findall_name_after p skip s) ->
  name <> [] /\ forallb name_char name = true.
Proof.
  revert skip; induction s as [|c s IH]; intros skip; simpl; [tauto|].
  destruct skip as [|k]; [|apply IH].
  destruct (match_name_after p (c :: s)) as [[n r]|] eqn:E; [|apply IH].
  intros [<-|H]; [|exact (IH _ H)].
  exact (match_name_after_name _ _ E).
Qed.

Lemma name_chars_clean (b : str) :
  b <> [] -> forallb name_char b = true ->
  b <> [] /\ ~ In COMMA b /\ strip b = b.
Proof.
  intros Hne Hall. rewrite forallb_forall in Hall.
  assert (Hc : forall x, In x b -> x <> COMMA /\ is_space x = false).
  { intros x Hx. specialize (Hall x Hx). unfold name_char in Hall.
    apply andb_true_iff in Hall. destruct Hall as [H1 H2].
    apply negb_true_iff in H1, H2. apply N.eqb_neq in H1. auto. }
  split; [exact Hne|]. split.
  - intros Hin. apply (proj1 (Hc _ Hin)). reflexivity.
  - apply strip_same.
    + destruct b as [|x b]; [exact I|]. apply Hc. left. reflexivity.
    + destruct (rev b) as [|z r] eqn:Er; [exact I|]. apply Hc.
      apply in_rev. rewrite Er. left. reflexivity.
Qed.

Lemma split_fields_no_sep (sep : char) (s f : str) :
  In f (split sep s) -> ~ In sep f.
Proof.
  revert f; induction s as [|c s IH]; intros f; simpl.
  - intros [<-|[]]. tauto.
  - destruct (N.eqb c sep) eqn:E.
    + intros [<-|H]; [tauto | exact (IH _ H)].
    + destruct (split sep s) as [|g gs] eqn:Es.
      * intros [<-|[]]. intros [->|[]]. rewrite N.eqb_refl in E. discriminate.
      * intros [<-|H].
        -- intros [->|Hin]; [rewrite N.eqb_refl in E; discriminate|].
           apply (IH g); [left; reflexivity | exact Hin].
        -- apply IH. right. exact H.
Qed.

Lemma in_strip (c : char) (s : str) : In c (strip s) -> In c s.
Proof.
  intros H. destruct (strip_infix s) as [a [b Hs]]. rewrite Hs.
  apply in_or_app. right. apply in_or_app. left. exact H.
Qed.

(** Where a result of the ref-extraction rule comes from. *)
Lemma extract_branch_from_refs_cases (refs_str b : str) :
  extract_branch_from_refs refs_str = Some b ->
  (b <> [] /\ forallb name_char b = true)
  \/ (b <> [] /\ exists f, In f (split COMMA (strip refs_str))
                          /\ b = strip f)
  \/ b = lit "main" \/ b = lit "master".
Proof.
  unfold extract_branch_from_refs.
  destruct refs_str as [|c0 r0]; [discriminate|].
  set (s := strip (c0 :: r0)).
  destruct (if contains (lit "HEAD -> ") s
            then option_map fst
                   (re_search (match_name_after (lit "HEAD -> ")) s)
            else None) as [name|] eqn:Eh.
  { intros [= <-]. left.
    destruct (contains (lit "HEAD -> ") s); [|discriminate].
    destruct (re_search (match_name_after (lit "HEAD -> ")) s)
      as [[n r]|] eqn:Er; [|discriminate].
    injection Eh as <-. apply re_search_some in Er.
    destruct Er as [a [t [_ Hm]]].
    exact (match_name_after_name _ _ Hm). }
  destruct (if contains (lit "origin/") s
            then find _ (findall_name_after (lit "origin/") 0 s)
            else None) as [name|] eqn:Eo.
  { intros [= <-]. left.
    destruct (contains (lit "origin/") s); [|discriminate].
    apply find_some in Eo. destruct Eo as [Hin _].
    exact (findall_names _ _ _ _ Hin). }
  destruct (find _ (map strip (split COMMA s))) as [part|] eqn:Ep.
  { intros [= <-]. right. left.
    apply find_some in Ep. destruct Ep as [Hin Hp].
    apply in_map_iff in Hin. destruct Hin as [f [<- Hf]].
    apply andb_true_iff in Hp. destruct Hp as [_ Hp].
    apply negb_true_iff in Hp. unfold str_in in Hp. simpl in Hp.
    split; [|exists f; auto].
    intros E. rewrite E in Hp. simpl in Hp. discriminate. }
  destruct (_ || _); [intros [= <-]; auto|].
  destruct (_ || _); [|discriminate].
  intros [= <-]. auto.
Qed.

(** X4. A branch name taken from refs is never empty, holds no comma and
    has no white space at either end. *)
Theorem extract_branch_from_refs_clean (refs_str b : str) :
  extract_branch_from_refs refs_str = Some b ->
  b <> [] /\ ~ In COMMA b /\ strip b = b.
Proof.
  intros H. apply extract_branch_from_refs_cases in H.
  destruct H as [[Hne Hall] | [[Hne [f [Hf ->]]] | [ -> | -> ]]].
  - apply name_chars_clean; assumption.
  - split; [exact Hne|]. split; [|apply strip_idem].
    intros Hin. apply in_strip in Hin.
    exact (split_fields_no_sep _ _ _ Hf Hin).
  - repeat split; try discriminate. simpl. intuition discriminate.
  - repeat split; try discriminate. simpl. intuition discriminate.
Qed.

Lemma extract_branch_from_refs_clean_witness :
  lit "feature-x" <> [] /\ ~ In COMMA (lit "feature-x")
  /\ strip (lit "feature-x") = lit "feature-x".
Proof.
  apply (@extract_branch_from_refs_clean
           (lit "HEAD -> feature-x, origin/feature-x")).
  reflexivity.
Defined.

(** X5. A refs string made of white space only gives no branch. *)
Theorem extract_branch_from_refs_blank (refs_str : str) :
  forallb is_space refs_str = true ->
  extract_branch_from_refs refs_str = None.
Proof.
  intros H. unfold extract_branch_from_refs.
  destruct refs_str as [|c r]; [reflexivity|].
  rewrite (strip_all_space _ H). reflexivity.
Qed.

Lemma extract_branch_from_refs_blank_witness :
  extract_branch_from_refs (lit "   ") = None.
Proof. apply extract_branch_from_refs_blank. reflexivity. Defined.

Lemma strip_prefix_app (p r : str) : strip_prefix p (p ++ r) = Some r.
Proof.
  induction p as [|x p IH]; simpl; [reflexivity|].
  rewrite N.eqb_refl. exact IH.
Qed.

Lemma strip_prefix_startswith (p s r : str) :
  strip_prefix p s = Some r -> startswith p s = true.
Proof.
  destruct (startswith p s) eqn:E; [reflexivity|].
  rewrite (strip_prefix_none _ _ E). discriminate.
Qed.

Lemma span_app (ok : char -> bool) (a b : str) :
  forallb ok a = true ->
  match b with [] => True | x :: _ => ok x = false end ->
  span ok (a ++ b) = (a, b).
Proof.
  intros Ha Hb. induction a as [|c a IH]; simpl.
  - destruct b as [|x b]; [reflexivity|]. simpl. rewrite Hb. reflexivity.
  - simpl in Ha. apply andb_true_iff in Ha. destruct Ha as [Hc Ha].
    rewrite Hc, (IH Ha). reflexivity.
Qed.

Lemma startswith_trans (q p s : str) :
  startswith q p = true -> startswith p s = true -> startswith q s = true.
Proof.
  intros H1 H2. apply startswith_app in H1, H2.
  destruct H1 as [b ->], H2 as [b' ->]. apply startswith_app.
  exists (b ++ b'). rewrite app_assoc. reflexivity.
Qed.

(** A search finds nothing in a text that lacks a word every match starts
    with. *)
Lemma re_search_absent (A : Type) (m : str -> option A) (q s : str) :
  (forall t x, m t = Some x -> startswith q t = true) ->
  contains q s = false -> re_search m s = None.
Proof.
  intros Hm. induction s as [|c s IH]; intros H.
  - simpl in *. rewrite orb_false_r in H.
    destruct (m []) eqn:E; [|reflexivity].
    rewrite (Hm _ _ E) in H. discriminate.
  - apply contains_cons_false in H. destruct H as [H1 H2].
    change (re_search m (c :: s))
      with (match m (c :: s) with
            | Some x => Some x
            | None => re_search m s
            end).
    destruct (m (c :: s)) eqn:E; [|exact (IH H2)].
    rewrite (Hm _ _ E) in H1. discriminate.
Qed.

Lemma match_pull_request_prefix (t g : str) :
  match_pull_request t = Some g ->
  startswith (lit "Merge pull request #") t = true.
Proof.
  unfold match_pull_request.
  destruct (strip_prefix (lit "Merge pull request #") t) eqn:E;
    [|discriminate].
  intros _. exact (strip_prefix_startswith _ _ E).
Qed.

Lemma match_merge_branch_prefix (t g : str) :
  match_merge_branch t = Some g ->
  startswith (lit "Merge branch '") t = true.
Proof.
  unfold match_merge_branch.
  destruct (strip_prefix (lit "Merge branch '") t) eqn:E; [|discriminate].
  intros _. exact (strip_prefix_startswith _ _ E).
Qed.

Lemma re_search_head (A : Type) (m : str -> option A) (s : str) (x : A) :
  m s = Some x -> re_search m s = Some x.
Proof. intros H. destruct s; simpl; rewrite H; reflexivity. Qed.

(** X6. From a message [Merge pull request #<number> from <owner>/<name>],
    with a decimal number, an owner without slash and a name that runs to
    the end of the line, the rule extracts the name, stripped; the name may
    hold slashes. *)
Theorem merge_message_pull_request (number owner name : str) :
  number <> [] -> forallb is_decimal number = true ->
  owner <> [] -> forallb (fun c => negb (N.eqb c 47)) owner = true ->
  name <> [] -> forallb (fun c => negb (N.eqb c NL)) name = true ->
  extract_branch_from_merge_message
    (lit "Merge pull request #" ++ number ++ lit " from " ++ owner
     ++ lit "/" ++ name)
  = Some (strip name).
Proof.
  intros Hn Hd Ho Hs Hb Hl. unfold extract_branch_from_merge_message.
  rewrite (@re_search_head _ match_pull_request _ name); [reflexivity|].
  unfold match_pull_request. rewrite strip_prefix_app.
  rewrite (span_app _ _ _ Hd) by reflexivity.
  destruct number as [|d0 number]; [congruence|].
  rewrite strip_prefix_app.
  rewrite (span_app _ _ _ Hs) by reflexivity.
  destruct owner as [|o0 owner]; [congruence|].
  rewrite strip_prefix_app.
  rewrite <- (app_nil_r name) at 1.
  rewrite (span_app _ _ _ Hl) by exact I.
  destruct name; [congruence | reflexivity].
Qed.

Lemma merge_message_pull_request_witness :
  extract_branch_from_merge_message
    (lit "Merge pull request #12 from alice/feature/login ")
  = Some (lit "feature/login").
Proof.
  apply (@merge_message_pull_request (lit "12") (lit "alice")
           (lit "feature/login "));
    try discriminate; reflexivity.
Defined.

(** X7. From a message that holds no pull-request pattern and starts with
    [Merge branch '<name>'], the rule extracts the name, stripped, whatever
    follows the closing quote. *)
Theorem merge_message_branch (name rest : str) :
  name <> [] -> forallb (fun c => negb (N.eqb c 39)) name = true ->
  contains (lit "Merge pull request #")
           (lit "Merge branch '" ++ name ++ lit "'" ++ rest) = false ->
  extract_branch_from_merge_message
    (lit "Merge branch '" ++ name ++ lit "'" ++ rest)
  = Some (strip name).
Proof.
  intros Hn Hq Hpr. unfold extract_branch_from_merge_message.
  rewrite (re_search_absent match_pull_request _ _
             match_pull_request_prefix Hpr).
  rewrite (@re_search_head _ match_merge_branch _ name); [reflexivity|].
  unfold match_merge_branch. rewrite strip_prefix_app.
  rewrite (span_app _ _ _ Hq) by reflexivity.
  destruct name; [congruence|]. rewrite strip_prefix_app. reflexivity.
Qed.

Lemma merge_message_branch_witness :
  extract_branch_from_merge_message
    (lit "Merge branch 'feat' into main")
  = Some (lit "feat").
Proof.
  apply (@merge_message_branch (lit "feat") (lit " into main"));
    [discriminate | reflexivity | reflexivity].
Defined.

(** X8. A message that does not contain ["Merge "], in this very case,
    gives no branch. *)
Theorem merge_message_without_merge (message : str) :
  contains (lit "Merge ") message = false ->
  extract_branch_from_merge_message message = None.
Proof.
  intros H. unfold extract_branch_from_merge_message.
  rewrite (@re_search_absent _ match_pull_request (lit "Merge ") message),
          (@re_search_absent _ match_merge_branch (lit "Merge ") message);
    try exact H; try reflexivity.
  - intros t x Hm. apply match_merge_branch_prefix in Hm.
    eapply startswith_trans; [|exact Hm]. reflexivity.
  - intros t x Hm. apply match_pull_request_prefix in Hm.
    eapply startswith_trans; [|exact Hm]. reflexivity.
Qed.

Lemma merge_message_without_merge_witness :
  extract_branch_from_merge_message (lit "merge branch 'feat'") = None.
Proof. apply merge_message_without_merge. reflexivity. Defined.

(* ================================================================== *)
(** * Further properties of the attribution engine *)







(** X13. The periods leave the first loop in ascending order of merge time,
    because the loop runs over the records in timestamp order: the sort of
    line 135 returns its argument. *)
Theorem branch_periods_sort_is_identity (commits : heap) :
  let branch_periods :=
    snd (fold_left (merge_step commits) (sorted_refs commits) ([], [])) in
  sorted_by merge_time branch_periods = branch_periods.
Proof.
  intros branch_periods. unfold branch_periods, sorted_refs.
  fold (sorted_pairs commits).
  rewrite (proj1 (merge_fold commits (sorted_pairs commits) ([], [])
                    (sorted_pairs_lookup commits))).
  simpl. rewrite sorted_records. apply sorted_by_id.
  apply periods_of_sorted. apply sorted_by_sorted.
Qed.

Lemma insert_by_map (A : Type) (key : A -> Z) (g : A -> A) (x : A)
    (l : list A) :
  (forall a, key (g a) = key a) ->
  insert_by key (g x) (map g l) = map g (insert_by key x l).
Proof.
  intros Hk. induction l as [|y l IH]; simpl; [reflexivity|].
  rewrite !Hk. destruct (key x <=? key y); simpl; [reflexivity|].
  rewrite IH. reflexivity.
Qed.

Lemma sorted_by_map (A : Type) (key : A -> Z) (g : A -> A) (l : list A) :
  (forall a, key (g a) = key a) ->
  sorted_by key (map g l) = map g (sorted_by key l).
Proof.
  intros Hk. induction l as [|x l IH]; simpl; [reflexivity|].
  rewrite IH. apply insert_by_map. exact Hk.
Qed.

(** The first pass does not read the key ['branch']. *)
Lemma merge_pass_branch_blind (g : Commit -> str) (h : heap) :
  let h' := map (fun c => set_branch (g c) c) h in
  snd (merge_pass h') = snd (merge_pass h)
  /\ forall k, dict_mem k (fst (merge_pass h'))
               = dict_mem k (fst (merge_pass h)).
Proof.
  intros h'.
  destruct (merge_pass_spec h) as [H1 H2].
  destruct (merge_pass_spec h') as [H1' H2'].
  assert (Hs : sorted_by timestamp h'
               = map (fun c => set_branch (g c) c) (sorted_by timestamp h))
    by (apply sorted_by_map; reflexivity).
  split.
  - rewrite H1, H1', Hs.
    assert (Hp : forall l,
               periods_of (map (fun c => set_branch (g c) c) l)
               = periods_of l).
    { induction l as [|c l IH]; [reflexivity|].
      unfold periods_of in *. simpl. rewrite IH. reflexivity. }
    rewrite Hp. reflexivity.
  - intros k. rewrite H2, H2', Hs.
    generalize (sorted_by timestamp h) as l. clear.
    induction l as [|c l IH]; simpl; [reflexivity|].
    rewrite IH. reflexivity.
Qed.

(** X10. Running the engine on its own result changes nothing: no branch it
    assigns depends on a branch assigned before. *)
Theorem determine_commit_branches_idempotent (commits : heap) :
  determine_commit_branches (determine_commit_branches commits)
  = determine_commit_branches commits.
Proof.
  rewrite (determine_commit_branches_map commits).
  set (g := fun c => assigned_branch (fst (merge_pass commits))
                       (snd (merge_pass commits)) c).
  rewrite determine_commit_branches_map.
  destruct (merge_pass_branch_blind g commits) as [Hp Hm].
  rewrite map_map. apply map_ext. intros c.
  unfold assigned_branch at 1. simpl refs. simpl hash. simpl timestamp.
  rewrite Hp, Hm. reflexivity.
Qed.

(* ================================================================== *)
(** * Further properties of the record parser *)

(** The outer loop, one line at a time. *)
Lemma parse_lines_step (l : str) (rest : list str) :
  parse_lines (l :: rest)
  = match header_of l with
    | Some c =>
        let (files, left) := collect_files rest in
        set_files files c :: parse_lines left
    | None => parse_lines rest
    end.
Proof.
  unfold header_of.
  destruct (strip l) as [|c0 line] eqn:El.
  - cbn [parse_lines]. rewrite El. reflexivity.
  - destruct (contains [SEP] (c0 :: line)) eqn:Ec.
    + destruct (split SEP (c0 :: line)) as [|h [|ts [|m more]]] eqn:Es;
        try (cbn [parse_lines]; rewrite El, Ec, Es; reflexivity).
      rewrite <- El in Es.
      destruct (parse_timestamp ts) as [t|] eqn:Et.
      * rewrite (parse_lines_record l rest Es Et). reflexivity.
      * apply (parse_lines_bad_time l rest Es Et).
    + cbn [parse_lines]. rewrite El, Ec. reflexivity.
Qed.

Lemma collect_files_spec (ls files left : list str) :
  collect_files ls = (files, left) ->
  Forall path_line files
  /\ (length left <= length ls)%nat
  /\ match left with
     | [] => True
     | l :: _ => is_blank l = false /\ is_commit_line (strip l) = true
     end.
Proof.
  revert files left; induction ls as [|l ls IH]; intros files left.
  - intros [= <- <-]. simpl. auto.
  - cbn [collect_files]. destruct (strip l) as [|c0 nl] eqn:El.
    + intros H. destruct (IH _ _ H) as [H1 [H2 H3]].
      split; [exact H1|]. split; [simpl; lia | exact H3].
    + destruct (is_commit_line (c0 :: nl)) eqn:Ec.
      * intros [= <- <-]. split; [constructor|]. split; [lia|].
        unfold is_blank. rewrite El. auto.
      * destruct (collect_files ls) as [fs lf] eqn:Ecf.
        intros [= <- <-]. destruct (IH _ _ eq_refl) as [H1 [H2 H3]].
        split; [|split; [simpl; lia | exact H3]].
        constructor; [|exact H1]. unfold path_line.
        rewrite <- El. rewrite strip_idem. rewrite El.
        split; [discriminate | auto].
Qed.

(** Induction along the outer loop. *)
Lemma parse_lines_ind (P : list str -> list Commit -> Prop) :
  P [] [] ->
  (forall l rest, header_of l = None ->
                  P rest (parse_lines rest) ->
                  P (l :: rest) (parse_lines rest)) ->
  (forall l rest c files left,
      header_of l = Some c -> collect_files rest = (files, left) ->
      P left (parse_lines left) ->
      P (l :: rest) (set_files files c :: parse_lines left)) ->
  forall lines, P lines (parse_lines lines).
Proof.
  intros H0 Hskip Hrec lines.
  assert (G : forall n lines, (length lines <= n)%nat ->
                              P lines (parse_lines lines)).
  { induction n as [|n IH]; intros [|l rest] Hlen; try exact H0.
    - simpl in Hlen. lia.
    - rewrite parse_lines_step. simpl in Hlen.
      destruct (header_of l) as [c|] eqn:Eh.
      + destruct (collect_files rest) as [files left] eqn:Ec.
        apply (Hrec _ _ _ _ _ Eh Ec). apply IH.
        destruct (collect_files_spec _ Ec) as [_ [Hl _]]. lia.
      + apply Hskip; [exact Eh|]. apply IH. lia. }
  apply (G (length lines)). lia.
Qed.

(** X14. Every file of a parsed record is a stripped, non-empty line that
    the header test of the inner loop rejects. *)
Theorem parsed_files_are_paths (lines : list str) (c : Commit) :
  In c (parse_lines lines) -> Forall path_line (files c).
Proof.
  revert c. apply (parse_lines_ind
    (fun _ out => forall c, In c out -> Forall path_line (files c))).
  - intros c [].
  - auto.
  - intros l rest c0 fs left _ Hc IH c [<-|Hin]; [|exact (IH _ Hin)].
    exact (proj1 (collect_files_spec _ Hc)).
Qed.

Lemma parsed_files_are_paths_witness :
  Forall path_line [lit "src/a.py"; lit "README.md"].
Proof.
  apply (@parsed_files_are_paths
           [full_header; lit "  src/a.py "; []; lit "README.md"]
           (mkCommit (lit "0123456789012345678901234567890123456789")
                     63889376400 (lit "first") []
                     [lit "src/a.py"; lit "README.md"] None)).
  left. reflexivity.
Defined.

Lemma header_of_fields (l : str) (c : Commit) :
  header_of l = Some c ->
  ~ In SEP (hash c) /\ ~ In SEP (message c) /\ ~ In SEP (refs c)
  /\ files c = [] /\ branch c = None.
Proof.
  unfold header_of. destruct (strip l) as [|c0 line]; [discriminate|].
  destruct (contains [SEP] (c0 :: line)); [|discriminate].
  destruct (split SEP (c0 :: line)) as [|h [|ts [|m more]]] eqn:Es;
    try discriminate.
  destruct (parse_timestamp ts) as [t|] eqn:Et; [|discriminate].
  intros [= <-]. simpl.
  assert (Hf : forall f, In f (h :: ts :: m :: more) -> ~ In SEP f)
    by (intros f Hf; rewrite <- Es in Hf;
        exact (split_fields_no_sep _ _ _ Hf)).
  repeat split; try (apply Hf; simpl; tauto).
  destruct more as [|r more]; [tauto|]. apply Hf. simpl. tauto.
Qed.

(** X17. The hash, the message and the refs of a parsed record hold no
    separator: a header line is cut at every separator it holds. *)
Theorem parsed_fields_hold_no_separator (lines : list str) (c : Commit) :
  In c (parse_lines lines) ->
  ~ In SEP (hash c) /\ ~ In SEP (message c) /\ ~ In SEP (refs c).
Proof.
  revert c. apply (parse_lines_ind
    (fun _ out => forall c, In c out ->
       ~ In SEP (hash c) /\ ~ In SEP (message c)
       /\ ~ In SEP (refs c))).
  - intros c [].
  - auto.
  - intros l rest c0 fs left Hh _ IH c [<-|Hin]; [|exact (IH _ Hin)].
    apply header_of_fields in Hh. simpl. tauto.
Qed.

Lemma parsed_fields_hold_no_separator_witness :
  ~ In SEP (lit "abc") /\ ~ In SEP (lit "msg") /\ ~ In SEP (lit "refs").
Proof.
  apply (@parsed_fields_hold_no_separator
           [short_header ++ [SEP] ++ lit "refs" ++ [SEP] ++ lit "lost"]
           (mkCommit (lit "abc") 63889380000 (lit "msg") (lit "refs") []
                     None)).
  left. reflexivity.
Defined.

Lemma header_of_blank (l : str) : is_blank l = true -> header_of l = None.
Proof.
  unfold is_blank, header_of. destruct (strip l); [reflexivity|discriminate].
Qed.

Lemma drop_blank_cons (l : str) (ls : list str) :
  drop_blank (l :: ls)
  = if is_blank l then drop_blank ls else l :: drop_blank ls.
Proof. unfold drop_blank. simpl. destruct (is_blank l); reflexivity. Qed.

Lemma collect_files_drop_blank (ls : list str) :
  collect_files (drop_blank ls)
  = (fst (collect_files ls), drop_blank (snd (collect_files ls))).
Proof.
  induction ls as [|l ls IH]; [reflexivity|].
  rewrite drop_blank_cons. cbn [collect_files]. unfold is_blank.
  destruct (strip l) as [|c0 nl] eqn:El.
  - exact IH.
  - cbn [collect_files]. rewrite El.
    destruct (is_commit_line (c0 :: nl)).
    + cbn [fst snd]. rewrite drop_blank_cons. unfold is_blank.
      rewrite El. reflexivity.
    + rewrite IH. destruct (collect_files ls). reflexivity.
Qed.

(** X15. Blank lines do not matter to the parser, wherever they stand:
    removing them from the log leaves the records as they are. *)
Theorem blank_lines_do_not_matter (lines : list str) :
  parse_lines (drop_blank lines) = parse_lines lines.
Proof.
  apply (parse_lines_ind
    (fun lines out => parse_lines (drop_blank lines) = out)).
  - reflexivity.
  - intros l rest Hh IH. rewrite drop_blank_cons.
    destruct (is_blank l); [exact IH|].
    rewrite parse_lines_step, Hh. exact IH.
  - intros l rest c fs left Hh Hc IH. rewrite drop_blank_cons.
    destruct (is_blank l) eqn:Eb.
    + rewrite (header_of_blank _ Eb) in Hh. discriminate.
    + rewrite parse_lines_step, Hh, collect_files_drop_blank, Hc.
      cbn [fst snd]. rewrite IH. reflexivity.
Qed.

(** The inner loop takes the path lines and stops at the next header. *)
Lemma collect_files_paths (paths rest : list str) :
  Forall path_line paths ->
  match rest with
  | [] => True
  | l :: _ => is_blank l = false /\ is_commit_line (strip l) = true
  end ->
  collect_files (paths ++ rest) = (paths, rest).
Proof.
  intros Hp Hr. induction Hp as [|f paths [Hne [Hs Hc]] _ IH];
    cbn [app collect_files].
  - destruct rest as [|l rest]; [reflexivity|].
    destruct Hr as [Hb Hl]. unfold is_blank in Hb. cbn [collect_files].
    destruct (strip l) as [|c0 nl]; [discriminate|].
    rewrite Hl. reflexivity.
  - rewrite Hs. destruct f as [|c0 f]; [congruence|].
    rewrite Hc, IH. reflexivity.
Qed.

(** X16. A log made of blocks, each a header line of the log command
    followed by its path lines, is parsed into one record per block, in the
    order of the log, each with exactly its path lines as files. *)
Theorem parse_lines_of_blocks (blocks : list (str * list str)) :
  Forall log_block blocks ->
  parse_lines (flat_map (fun b => fst b :: snd b) blocks)
  = flat_map block_record blocks.
Proof.
  induction 1 as [|[line paths] blocks [Hh [Hl Hp]] Hall IH];
    [reflexivity|].
  cbn [flat_map fst snd app] in *. rewrite parse_lines_step.
  unfold block_record at 1. cbn [fst snd].
  destruct (header_of line) as [c|] eqn:Eh; [|congruence].
  rewrite (collect_files_paths _ Hp).
  - rewrite IH. reflexivity.
  - destruct Hall as [|[line' paths'] blocks' [Hh' [Hl' _]] _];
      [exact I|].
    cbn [flat_map fst snd app]. split; [|exact Hl'].
    unfold is_blank. unfold header_of in Hh'. cbn [fst] in Hh'.
    destruct (strip line'); [exfalso; apply Hh'; reflexivity | reflexivity].
Qed.

Lemma parse_lines_of_blocks_witness :
  parse_lines [full_header; lit "src/a.py"; lit "README.md"; full_header]
  = [mkCommit (lit "0123456789012345678901234567890123456789") 63889376400
              (lit "first") [] [lit "src/a.py"; lit "README.md"] None;
     mkCommit (lit "0123456789012345678901234567890123456789") 63889376400
              (lit "first") [] [] None].
Proof.
  apply (@parse_lines_of_blocks
           [(full_header, [lit "src/a.py"; lit "README.md"]);
            (full_header, [])]).
  repeat constructor; try discriminate; reflexivity.
Defined.

Lemma contains_single (c : char) (s : str) :
  contains [c] s = true <-> In c s.
Proof.
  induction s as [|y s IH].
  - simpl. split; [discriminate | tauto].
  - change (contains [c] (y :: s))
      with (N.eqb c y && true || contains [c] s).
    rewrite andb_true_r, orb_true_iff, N.eqb_eq, IH. simpl.
    split; (intros [H|H]; [left; congruence | right; exact H]).
Qed.

Lemma in_split_field (sep x : char) (s f : str) :
  In f (split sep s) -> In x f -> In x s.
Proof.
  revert f; induction s as [|c s IH]; intros f; simpl.
  - intros [<-|[]]. tauto.
  - destruct (N.eqb c sep).
    + intros [<-|H] Hx; [destruct Hx|]. right. exact (IH _ H Hx).
    + destruct (split sep s) as [|g gs] eqn:Es.
      * intros [<-|[]] [->|[]]. left. reflexivity.
      * intros [<-|H] Hx.
        -- destruct Hx as [->|Hx]; [left; reflexivity|].
           right. apply (IH g); [left; reflexivity | exact Hx].
        -- right. apply (IH f); [right; exact H | exact Hx].
Qed.

Lemma header_of_no_separator (l : str) :
  ~ In SEP l -> header_of l = None.
Proof.
  intros H. unfold header_of. destruct (strip l) as [|c0 line] eqn:El;
    [reflexivity|].
  destruct (contains [SEP] (c0 :: line)) eqn:Ec; [|reflexivity].
  exfalso. apply H. apply in_strip. rewrite El.
  apply contains_single. exact Ec.
Qed.

Lemma parse_lines_no_header (lines : list str) :
  (forall l, In l lines -> header_of l = None) -> parse_lines lines = [].
Proof.
  induction lines as [|l rest IH]; intros H; [reflexivity|].
  rewrite parse_lines_step, (H l (or_introl eq_refl)).
  apply IH. intros l' Hl'. apply H. right. exact Hl'.
Qed.

(** X21. A log text without the separator holds no record: the pipeline
    answers ["No commits found"]. *)
Theorem log_without_separator (text : str) :
  ~ In SEP text ->
  parse_commits (Completed text) = []
  /\ format_timeline (Completed text) = Some (lit "No commits found").
Proof.
  intros H.
  assert (Hp : parse_commits (Completed text) = []).
  { unfold parse_commits. simpl get_git_log_data.
    destruct text as [|c0 text]; [reflexivity|].
    rewrite parse_lines_no_header; [reflexivity|].
    intros l Hl. apply header_of_no_separator. intros Hin.
    apply H. apply in_strip. exact (@in_split_field NL SEP _ l Hl Hin). }
  split; [exact Hp|]. unfold format_timeline. rewrite Hp. reflexivity.
Qed.

Lemma log_without_separator_witness :
  parse_commits (Completed (lit "fatal: not a git repository")) = []
  /\ format_timeline (Completed (lit "fatal: not a git repository"))
     = Some (lit "No commits found").
Proof.
  apply log_without_separator. simpl. intuition discriminate.
Defined.


(* ================================================================== *)
(** * Further properties of the renderer *)

Lemma list_str_eqb_refl (l : list str) : list_str_eqb l l = true.
Proof.
  induction l as [|x l IH]; [reflexivity|]. simpl.
  rewrite IH, (proj2 (str_eqb_eq x x) eq_refl). reflexivity.
Qed.

Lemma commit_eqb_refl (c : Commit) : commit_eqb c c = true.
Proof.
  unfold commit_eqb.
  rewrite !(proj2 (str_eqb_eq _ _) eq_refl), Z.eqb_refl, list_str_eqb_refl.
  destruct (branch c); simpl; [apply str_eqb_eq|]; reflexivity.
Qed.

Lemma some_inj (A : Type) (x y : A) : Some x = Some y -> x = y.
Proof. congruence. Qed.

(** The text of a report whose first six lines are known. *)
Lemma join_block (t cl bl m : str) (tail : list str) :
  join [NL] (t :: cl :: bl :: [] :: m :: [] :: tail)
  = (t ++ [NL] ++ cl ++ [NL] ++ bl ++ [NL] ++ [NL] ++ m ++ [NL])
    ++ join [NL] ([] :: tail).
Proof.
  change (join [NL] (t :: cl :: bl :: [] :: m :: [] :: tail))
    with (t ++ [NL] ++ cl ++ [NL] ++ bl ++ [NL] ++ [] ++ [NL] ++ m ++ [NL]
          ++ join [NL] ([] :: tail)).
  rewrite <- !app_assoc. reflexivity.
Qed.

(** X20. A report of at least one record opens with the block of the
    earliest record, a record of the input with the least timestamp: the
    line ["time: 00:00"], the commit line with its hash and merge flag, the
    branch line with its branch, an empty line and its message. *)
Theorem report_opens_with_earliest (c : Commit) (commits : list Commit)
    (report : str) :
  render_timeline (c :: commits) = Some report ->
  exists first b,
    In first (c :: commits)
    /\ (forall x, In x (c :: commits) -> timestamp first <= timestamp x)
    /\ branch first = Some b
    /\ startswith
         (lit "time: 00:00" ++ [NL]
          ++ (lit "commit: " ++ hash first
              ++ (if startswith (lit "Merge") (message first)
                     || contains (lit "merge")
                                 (map lower_ascii (message first))
                  then lit " [MERGE]" else [])) ++ [NL]
          ++ (lit "branch: " ++ b) ++ [NL]
          ++ [NL]
          ++ message first ++ [NL])
         report = true.
Proof.
  unfold render_timeline.
  pose proof (sorted_by_perm timestamp (c :: commits)) as HP.
  pose proof (sorted_by_sorted timestamp (c :: commits)) as HS.
  destruct (sorted_by timestamp (c :: commits)) as [|first rest].
  { apply Permutation_nil in HP. discriminate. }
  cbn [render_loop]. unfold render_entry.
  destruct (branch first) as [b|] eqn:Eb; [|discriminate].
  destruct (render_loop first (timestamp first) (timestamp first) rest)
    as [result|]; [|discriminate].
  intros H. apply some_inj in H. rewrite <- H. clear H. exists first, b.
  split; [eapply Permutation_in; [exact HP | left; reflexivity]|].
  split.
  { intros x Hx. apply (Permutation_in _ (Permutation_sym HP)) in Hx.
    destruct Hx as [<-|Hx]; [lia|].
    inversion HS as [|? ? _ Hall]; subst.
    rewrite Forall_forall in Hall. exact (Hall x Hx). }
  split; [exact Eb|].
  unfold time_line. rewrite commit_eqb_refl.
  cbn [app]. rewrite join_block.
  exact (proj2 (startswith_app _ _) (ex_intro _ _ eq_refl)).
Qed.

Lemma report_opens_with_earliest_witness :
  exists first b,
    In first (determine_commit_branches feat_history)
    /\ (forall x, In x (determine_commit_branches feat_history) ->
                  timestamp first <= timestamp x)
    /\ branch first = Some b
    /\ startswith
         (lit "time: 00:00" ++ [NL]
          ++ (lit "commit: " ++ hash first
              ++ (if startswith (lit "Merge") (message first)
                     || contains (lit "merge")
                                 (map lower_ascii (message first))
                  then lit " [MERGE]" else [])) ++ [NL]
          ++ (lit "branch: " ++ b) ++ [NL]
          ++ [NL]
          ++ message first ++ [NL])
         (match render_timeline (determine_commit_branches feat_history)
          with Some report => report | None => [] end) = true.
Proof.
  apply (@report_opens_with_earliest
           (set_branch (lit "feat") commit_A)
           [set_branch (lit "main") commit_B;
            set_branch (lit "main") commit_C]).
  reflexivity.
Defined.

(** X22. The renderer sorts for itself: when the timestamps are pairwise
    distinct, the report does not depend on the order in which it receives
    the records. *)
Theorem render_timeline_order (commits commits' : list Commit) :
  Permutation commits commits' ->
  NoDup (map timestamp commits) ->
  render_timeline commits = render_timeline commits'.
Proof.
  intros HP HN. unfold render_timeline.
  rewrite (sorted_by_unique timestamp HP HN). reflexivity.
Qed.

Lemma render_timeline_order_witness :
  render_timeline [set_branch (lit "feat") commit_A;
                   set_branch (lit "main") commit_B]
  = render_timeline [set_branch (lit "main") commit_B;
                     set_branch (lit "feat") commit_A].
Proof.
  apply render_timeline_order.
  - apply perm_swap.
  - repeat constructor; simpl; intuition discriminate.
Defined.

(** The time line of the merge made 90 minutes after the first record. *)
Lemma time_line_later_witness :
  time_line commit_A commit_B 36000 36000 = lit "time: 01:30  (+90 mins)".
Proof.
  apply (@time_line_later commit_A commit_B 36000 36000). reflexivity.
Defined.
